(** * WebSocket interception core of mockttp: rule binding, frame pipe,
    raw HTTP responses and pass-through target selection.

  Shallow embedding of [src/rules/mock-rule.ts] (class [MockRule]) and of
  the WebSocket handlers that follow it in the same file
  ([pipeWebSocket], [mirrorRejection], [rawResponse],
  [PassThroughWebSocketHandler], [RejectWebSocketHandler]), with the
  [ForwardingOptions] of [passthrough-handling-definitions.ts]. *)

From Stdlib Require Import ZArith NArith Ascii DecimalString DecimalN Lia.
From stdpp Require Import base list strings.

(** ** JavaScript string helpers used by the source *)
Module Js.

Definition CRLF : string := String "013"%char (String "010"%char "").

(** Truthiness of a string: only the empty string is falsy. *)
Definition truthy (s : string) : bool :=
  match s with "" => false | _ => true end.

(** Truthiness of a possibly null/undefined string. *)
Definition truthy_opt (o : option string) : bool :=
  match o with Some s => truthy s | None => false end.

(** A possibly-null string inside a template literal or a [+]: null is
    rendered as the four characters [null]. *)
Definition template (o : option string) : string :=
  match o with Some s => s | None => "null" end.

(** [`${n}`] for a non-negative integer number. *)
Definition num_to_string (n : N) : string :=
  NilEmpty.string_of_uint (N.to_uint n).

Definition is_digit (c : ascii) : bool :=
  let n := nat_of_ascii c in (48 <=? n)%nat && (n <=? 57)%nat.

(** ASCII lower-casing, [String.prototype.toLowerCase] on header names. *)
Definition lower_char (c : ascii) : ascii :=
  let n := nat_of_ascii c in
  if (65 <=? n)%nat && (n <=? 90)%nat then ascii_of_nat (n + 32) else c.

Fixpoint toLowerCase (s : string) : string :=
  match s with
  | "" => ""
  | String c r => String (lower_char c) (toLowerCase r)
  end.

(** [s.startsWith(p)] *)
Fixpoint startsWith (p s : string) : bool :=
  match p, s with
  | "", _ => true
  | String a p', String b s' => if Ascii.eqb a b then startsWith p' s' else false
  | String _ _, "" => false
  end.

(** The rest of [s] after the prefix [p], when [s] starts with [p]. *)
Fixpoint strip_prefix (p s : string) : option string :=
  match p, s with
  | "", _ => Some s
  | String a p', String b s' => if Ascii.eqb a b then strip_prefix p' s' else None
  | String _ _, "" => None
  end.

(** [s.includes(p)] *)
Fixpoint includes (p s : string) : bool :=
  startsWith p s || match s with "" => false | String _ r => includes p r end.

(** [s.split(c)] for a one-character separator: never empty. *)
Fixpoint split (sep : ascii) (s : string) : list string :=
  match s with
  | "" => [""]
  | String c r =>
      if Ascii.eqb c sep then "" :: split sep r
      else match split sep r with
           | x :: xs => String c x :: xs
           | [] => [String c ""]
           end
  end.

(** [s.replace(pat, by)] with a string pattern: the first occurrence only. *)
Fixpoint replace (pat by_ s : string) : string :=
  match strip_prefix pat s with
  | Some rest => by_ +:+ rest
  | None => match s with
            | "" => ""
            | String c r => String c (replace pat by_ r)
            end
  end.

(** [xs.join(sep)] *)
Fixpoint join (sep : string) (xs : list string) : string :=
  match xs with
  | [] => ""
  | [x] => x
  | x :: rest => x +:+ sep +:+ join sep rest
  end.

(** The longest run of decimal digits at the start of [s]. *)
Fixpoint take_digits (s : string) : string :=
  match s with
  | String c r => if is_digit c then String c (take_digits r) else ""
  | "" => ""
  end.

(** [parseInt(s)] for a string starting with a decimal digit run; [None]
    stands for NaN (no digit at the start). *)
Definition parseInt (s : string) : option N :=
  match take_digits s with
  | "" => None
  | ds => N.of_uint <$> NilEmpty.uint_of_string ds
  end.

End Js.

(** ** The frame pipe: [isValidStatusCode] and [pipeWebSocket] *)
Module Pipe.

(** The two ends of one pipe direction: frames arrive on [InSocket] and
    are relayed to [OutSocket]. *)
Inductive endpoint := InSocket | OutSocket.

(** A raw frame as built by [sender.constructor.frame(buf, options)]. *)
Record frame := mkFrame
  { fin : bool; rsv1 : bool; opcode : Z; mask : bool; readOnly : bool;
    payload : list Z }.

(** What a handler does to the two sockets and the console, in order. *)
Inductive effect :=
| Close (s : endpoint) (code : Z) (reason : string)       (* s.close(code, reason) went through *)
| CloseRaised (s : endpoint) (code : Z) (reason : string) (* s.close(code, reason) raised *)
| CloseBare (s : endpoint)                                (* s.close() *)
| SendFrame (s : endpoint) (f : frame)                    (* s._sender.sendFrame(f, cb) *)
| DestroyRaw (s : endpoint)                               (* s._socket.destroy() *)
| ConsoleLog
| ConsoleWarn.

Definition target (e : effect) : option endpoint :=
  match e with
  | Close s _ _ | CloseRaised s _ _ | CloseBare s | SendFrame s _ | DestroyRaw s => Some s
  | ConsoleLog | ConsoleWarn => None
  end.

(** A handler either returns after its effects or raises after them. *)
Inductive outcome :=
| Returned (effects : list effect)
| Raised (effects : list effect).

Definition effects_of (o : outcome) : list effect :=
  match o with Returned l | Raised l => l end.

Definition isValidStatusCode (code : Z) : bool :=
  ((1000 <=? code)%Z && (code <=? 1014)%Z &&
   negb (code =? 1004)%Z && negb (code =? 1005)%Z && negb (code =? 1006)%Z)
  || ((3000 <=? code)%Z && (code <=? 4999)%Z).

Section Handlers.
(** Whether the WebSocket library's [close(code, reason)] raises on the
    out socket for these arguments: decided by the library, not by the
    pipe. *)
Variable close_raises : Z → string → bool.

(** [inSocket.on('close', (num, reason) => ...)] *)
Definition on_close (num : Z) (reason : string) : list effect :=
  if isValidStatusCode num then
    if close_raises num reason
    then [CloseRaised OutSocket num reason; ConsoleWarn; CloseBare OutSocket]
    else [Close OutSocket num reason]
  else [CloseBare OutSocket].
End Handlers.

Definition INVALID_STATUS_PREFIX : string :=
  "Invalid WebSocket frame: invalid status code ".

(** The regular expression at one position: the literal text, then
    [(\d+)], greedy. *)
Definition invalid_status_here (s : string) : option string :=
  match Js.strip_prefix INVALID_STATUS_PREFIX s with
  | Some rest => match Js.take_digits rest with
                 | "" => None
                 | ds => Some ds
                 end
  | None => None
  end.

(** [INVALID_STATUS_REGEX.exec(msg)]: the first capture group of the
    leftmost match. *)
Fixpoint INVALID_STATUS_REGEX_exec (msg : string) : option string :=
  match invalid_status_here msg with
  | Some ds => Some ds
  | None => match msg with
            | "" => None
            | String _ r => INVALID_STATUS_REGEX_exec r
            end
  end.

(** [buf.writeUInt16BE(status)] on a 2-byte buffer: raises a RangeError
    outside [0, 65535] ([None]). *)
Definition writeUInt16BE (status : N) : option (list Z) :=
  if (status <=? 65535)%N
  then Some [Z.of_N status / 256; Z.of_N status mod 256]%Z
  else None.

Definition close_frame (buf : list Z) : frame :=
  {| fin := true; rsv1 := false; opcode := 8; mask := true; readOnly := false;
     payload := buf |}.

(** [inSocket.on('error', (err) => ...)], on [err.message]. The callback
    of [sendFrame] destroys the raw socket once the frame is written. *)
Definition on_error (message : string) : outcome :=
  match INVALID_STATUS_REGEX_exec message with
  | Some ds =>
      match Js.parseInt ds with
      | Some status =>
          match writeUInt16BE status with
          | Some buf =>
              Returned [ConsoleLog; SendFrame OutSocket (close_frame buf);
                        DestroyRaw OutSocket]
          | None => Raised [ConsoleLog]
          end
      | None => Raised [ConsoleLog]
      end
  | None => Returned [ConsoleLog; DestroyRaw OutSocket]
  end.

(** The diagnostic of the WebSocket library for a close frame whose
    16-bit status code [n] is not a valid one. *)
Definition vendor_invalid_status_message (n : N) : string :=
  INVALID_STATUS_PREFIX +:+ Js.num_to_string n.

End Pipe.


(** ** Rule binding: [class MockRule] *)
Module Rule.

(** *** Promises

    [rule.requests] holds promises, and [handle] creates one with an async
    arrow function, so the model keeps a store of promises: a promise is its
    index in the store. *)
Inductive settlement := Fulfilled | Rejected.

Inductive pstate := Pending | Settled (s : settlement).

(** Where the body of the async arrow function of [handle] stands. *)
Inductive position :=
| AtAwaitHandler (hp : nat)  (* suspended at [await this.handler.handle(req, res)] *)
| AtReturn (wp : nat)        (* returned [waitForCompletedRequest(req)], whose state it adopts *)
| Finished.

Inductive cell :=
| Leaf (st : pstate)                     (* of the handler's call or of waitForCompletedRequest *)
| Async (st : pstate) (pos : position).  (* [completedPromise], made by the async arrow function *)

Definition cell_state (c : cell) : pstate :=
  match c with Leaf st | Async st _ => st end.

(** The values [isComplete] can be compared with. *)
Inductive JsVal := JUndefined | JNull | JBool (b : bool).

(** [requestCount] is a JavaScript number that only ever holds a count; it
    is modelled as an unbounded natural number. *)
Record MockRule := mkRule
  { requests : list nat;
    requestCount : nat;
    completionChecker : option (nat → bool) }.

Record world := mkWorld { rule : MockRule; store : list cell }.

(** A rule right after its constructor: [requests = []], [requestCount = 0]. *)
Definition new_rule (checker : option (nat → bool)) : MockRule :=
  {| requests := []; requestCount := 0; completionChecker := checker |}.

Definition new_world (checker : option (nat → bool)) : world :=
  {| rule := new_rule checker; store := [] |}.

(** What [this.handler.handle(req, res)] does when the arrow function calls
    it: it returns a promise, in state [h0] (already settled or not), or it
    throws before returning one. *)
Inductive handler_call := Returns (h0 : pstate) | Throws.

(** [handle(req, res, record)]. The async arrow function runs up to its
    first [await]. It calls the handler. When the call returns its promise
    [hp], the arrow function suspends and [completedPromise] is its pending
    promise [cp]. When the call throws, the arrow function ends there and
    [completedPromise] is already rejected; the cell [hp] then holds the
    exception of the call, as a rejection. Then the rule pushes [cp] when
    recording, increments the counter and returns [cp]. *)
Definition handle (h : handler_call) (record : bool) (w : world) : world * nat :=
  let hp := length (store w) in
  let cp := S hp in
  let store' :=
    store w ++ match h with
               | Returns h0 => [Leaf h0; Async Pending (AtAwaitHandler hp)]
               | Throws => [Leaf (Settled Rejected); Async (Settled Rejected) Finished]
               end in
  let requests' :=
    if record then requests (rule w) ++ [cp] else requests (rule w) in
  ({| rule := {| requests := requests';
                 requestCount := requestCount (rule w) + 1;
                 completionChecker := completionChecker (rule w) |};
      store := store' |}, cp).

(** The owner of a pending leaf promise settles it. *)
Definition settle (p : nat) (s : settlement) (w : world) : world :=
  match store w !! p with
  | Some (Leaf Pending) =>
      {| rule := rule w; store := <[p := Leaf (Settled s)]> (store w) |}
  | _ => w
  end.

(** The job queue resumes the body of the arrow function of [cp]. After the
    handler's promise is fulfilled it calls [waitForCompletedRequest(req)],
    whose promise starts in state [w0]; after a rejection it rejects. *)
Definition resume (cp : nat) (w0 : pstate) (w : world) : world :=
  match store w !! cp with
  | Some (Async Pending (AtAwaitHandler hp)) =>
      match cell_state <$> store w !! hp with
      | Some (Settled Fulfilled) =>
          let wp := length (store w) in
          {| rule := rule w;
             store := <[cp := Async Pending (AtReturn wp)]> (store w ++ [Leaf w0]) |}
      | Some (Settled Rejected) =>
          {| rule := rule w;
             store := <[cp := Async (Settled Rejected) Finished]> (store w) |}
      | _ => w
      end
  | Some (Async Pending (AtReturn wp)) =>
      match cell_state <$> store w !! wp with
      | Some (Settled s) =>
          {| rule := rule w;
             store := <[cp := Async (Settled s) Finished]> (store w) |}
      | _ => w
      end
  | _ => w
  end.

(** What can happen to a rule, one scheduler turn at a time. *)
Inductive event :=
| Dispatch (h : handler_call) (record : bool)  (* the dispatcher calls [handle] *)
| Settle (p : nat) (s : settlement)
| Resume (cp : nat) (w0 : pstate).

Definition is_dispatch (e : event) : bool :=
  match e with Dispatch _ _ => true | _ => false end.

(** One event; for a [Dispatch], also its record flag and the promise that
    [handle] returned. *)
Definition step (e : event) (w : world) : world * option (bool * nat) :=
  match e with
  | Dispatch h record =>
      let '(w', cp) := handle h record w in (w', Some (record, cp))
  | Settle p s => (settle p s w, None)
  | Resume cp w0 => (resume cp w0 w, None)
  end.

(** A sequence of events, with the log of the dispatches in order. *)
Fixpoint run (es : list event) (w : world) : world * list (bool * nat) :=
  match es with
  | [] => (w, [])
  | e :: es' =>
      let '(w1, l1) := step e w in
      let '(w2, l2) := run es' w1 in
      (w2, match l1 with Some d => d :: l2 | None => l2 end)
  end.

(** The promises of the dispatches that asked for recording, in order. *)
Fixpoint recorded (log : list (bool * nat)) : list nat :=
  match log with
  | [] => []
  | (true, cp) :: rest => cp :: recorded rest
  | (false, _) :: rest => recorded rest
  end.

Definition invocations (es : list event) : nat :=
  length (List.filter is_dispatch es).

(** [isComplete()] *)
Definition isComplete (r : MockRule) : JsVal :=
  match completionChecker r with
  | Some checker => JBool (checker (requestCount r))
  | None => JNull
  end.

End Rule.

(** ** Raw HTTP responses: [rawResponse], [mirrorRejection] and the reject,
       echo and listen handlers *)
Module Http.

Abbreviation RawHeaders := (list (string * string)).

(** What a handler does with the downstream raw socket, in order. *)
Inductive sockop :=
| SockWrite (data : string)  (* socket.write(data) *)
| SockDestroy                (* socket.destroy() *)
| HandleUpgrade              (* wsServer.handleUpgrade(req, socket, head, cb) *)
| EmitWsUpgrade              (* socket.emit('ws-upgrade', ws) *)
| EmitConnection.            (* wsServer.emit('connection', ws) *)

(** The bytes handed to [socket.write], concatenated in order. *)
Fixpoint written (ops : list sockop) : string :=
  match ops with
  | [] => ""
  | SockWrite d :: rest => d +:+ written rest
  | _ :: rest => written rest
  end.

Definition header_line (h : string * string) : string :=
  h.1 +:+ ": " +:+ h.2.

Definition rawResponse (statusCode : N) (statusMessage : string)
    (headers : RawHeaders) : string :=
  ("HTTP/1.1 " +:+ Js.num_to_string statusCode +:+ " " +:+ statusMessage +:+ Js.CRLF)
  +:+ Js.join Js.CRLF (map header_line headers)
  +:+ (Js.CRLF +:+ Js.CRLF).

(** A response body: a string or a Buffer of bytes. As a condition, a
    Buffer is always truthy and a string is truthy unless empty. *)
Inductive Body := BodyString (s : string) | BodyBuffer (bytes : string).

Definition body_truthy (b : Body) : bool :=
  match b with BodyString s => Js.truthy s | BodyBuffer _ => true end.

Definition body_bytes (b : Body) : string :=
  match b with BodyString s | BodyBuffer s => s end.

(** A headers object with string values: its own keys in insertion order. *)
Abbreviation Headers := (list (string * string)).

(** Modelled from the spec: [objectHeadersToRaw] of [util/header-utils] is
    not among the sources; the raw response format emits the configured
    headers in order, one [name: value] line each. *)
Definition objectHeadersToRaw (headers : Headers) : RawHeaders := headers.

Record RejectWebSocketHandler := mkReject
  { statusCode : N; statusMessage : string; headers : Headers; body : Body }.

(** [RejectWebSocketHandler.handle] *)
Definition reject_handle (h : RejectWebSocketHandler) : list sockop :=
  [SockWrite (rawResponse (statusCode h) (statusMessage h)
                          (objectHeadersToRaw (headers h)))]
  ++ (if body_truthy (body h) then [SockWrite (body_bytes (body h))] else [])
  ++ [SockWrite Js.CRLF; SockDestroy].

(** The handler configuration of the 418 scenario. *)
Definition teapot : RejectWebSocketHandler :=
  {| statusCode := 418; statusMessage := "I'm a teapot";
     headers := [("X-Foo", "bar")]; body := BodyString "nope" |}.

(** [EchoWebSocketHandler.handle] and [ListenWebSocketHandler.handle] on
    the raw socket: the upgrade is handed to the WebSocket server. *)
Definition echo_handle : list sockop :=
  [HandleUpgrade; EmitWsUpgrade; EmitConnection].

Definition listen_handle : list sockop :=
  [HandleUpgrade; EmitWsUpgrade; EmitConnection].

(** The upstream response of the ['unexpected-response'] event. *)
Record IncomingMessage := mkIncoming
  { res_statusCode : option N;
    res_statusMessage : option string;
    res_rawHeaders : list string }.

(** What [await p] gives: the value [p] resolves with, or the exception of a
    rejected [p]. *)
Inductive awaited (A : Type) := Resolves (a : A) | Rejects.
Arguments Resolves {A} a.
Arguments Rejects {A}.

(** [statusCode || 500] *)
Definition status_or_500 (c : option N) : N :=
  match c with
  | Some n => if (n =? 0)%N then 500%N else n
  | None => 500%N
  end.

(** [statusMessage || 'Unknown error'] *)
Definition message_or_unknown (m : option string) : string :=
  match m with
  | Some s => if Js.truthy s then s else "Unknown error"
  | None => "Unknown error"
  end.

Section Mirror.
(** [pairFlatRawHeaders] of [util/header-utils], not among the sources. *)
Variable pairFlatRawHeaders : list string → RawHeaders.

(** [mirrorRejection(socket, rejectionResponse)]. [writable0] is
    [socket.writable] on entry, [writable1] after the body was read;
    [body] is what [await streamToBuffer(rejectionResponse)] gives. The
    result is the operations on the socket and whether the function
    returned ([true]) or its promise rejected ([false]). *)
Definition mirrorRejection (writable0 : bool) (res : IncomingMessage)
    (body : awaited string) (writable1 : bool) : list sockop * bool :=
  if writable0 then
    let head := SockWrite (rawResponse (status_or_500 (res_statusCode res))
                             (message_or_unknown (res_statusMessage res))
                             (pairFlatRawHeaders (res_rawHeaders res))) in
    match body with
    | Resolves b =>
        (head :: (if writable1 then [SockWrite b] else []) ++ [SockDestroy], true)
    | Rejects => ([head], false)
    end
  else ([SockDestroy], true).
End Mirror.

End Http.

(** ** Pass-through: [PassThroughWebSocketHandler.handle] and the headers
       of [connectUpstream] *)
Module PassThrough.

(** Raw headers: name and value pairs in order, names in their original
    case. A value is the string of the header; [None] is JavaScript's
    [null], which only [hostname!] can put there. *)
Abbreviation RawHeaders := (list (string * option string)).

(** The fields of [url.parse(s)] that the handler reads; [None] is [null]. *)
Record UrlParts := mkUrl
  { protocol : option string;
    hostname : option string;
    port : option string;
    path : option string }.

Record OngoingRequest := mkRequest
  { url : string;
    rawHeaders : RawHeaders;
    headers : string → option string;  (* req.headers[name] *)
    remoteIpAddress : option string }.

(** The raw socket: [socket.__lastHopEncrypted] (undefined, true or false)
    and [reqMessage.connection.encrypted]. *)
Record Socket := mkSocket
  { lastHopEncrypted : option bool;
    encrypted : bool }.

(** [updateHostHeader?: true | false | string]; absent is [None]. *)
Inductive UpdateHostHeader :=
| UpdateTrue
| UpdateFalse
| UpdateTo (value : string).

Record ForwardingOptions := mkForwarding
  { targetHost : string;
    updateHostHeader : option UpdateHostHeader }.

(** What [handle] ends with: the call of [connectUpstream], or a TypeError
    from a method call on [null] or [undefined]. *)
Inductive handled :=
| ConnectUpstream (wsUrl : string) (rawHeaders : RawHeaders)
| TypeError.

(** Modelled from the spec: [findRawHeader] of [util/header-utils] is not
    among the sources; it gives the Host (or [:authority]) header of the raw
    headers, the first pair whose name is the target when lower-cased. The
    pair is an element of the list, so the model returns its index with it. *)
Fixpoint findRawHeader (raw : RawHeaders) (targetKey : string)
    : option (nat * (string * option string)) :=
  match raw with
  | [] => None
  | (k, v) :: rest =>
      if String.eqb (Js.toLowerCase k) targetKey then Some (0, (k, v))
      else (λ '(i, h), (S i, h)) <$> findRawHeader rest targetKey
  end.

(** [port ? ':' + port : ''] *)
Definition port_suffix (port : option string) : string :=
  if Js.truthy_opt port then ":" +:+ Js.template port else "".

(** Whether a header is the one looked for under the lower-case [name]. *)
Definition is_named (name : string) (kv : string * option string) : bool :=
  String.eqb (Js.toLowerCase kv.1) name.

(** The value of the Host header after the three-way test on
    [updateHostHeader], from the value [old] it had before the test. *)
Definition host_value (old h p : option string) (u : option UpdateHostHeader)
    : option string :=
  match u with
  | None | Some UpdateTrue => Some (Js.template h +:+ port_suffix p)
  | Some (UpdateTo s) => if Js.truthy s then Some s else old
  | Some UpdateFalse => old
  end.

(** [socket.__lastHopEncrypted !== undefined ? ... : ...] *)
Definition transparent_protocol (socket : Socket) : string :=
  match lastHopEncrypted socket with
  | Some e => if e then "wss" else "ws"
  | None => if encrypted socket then "wss" else "ws"
  end.

(** The header name predicate of [_.omitBy] in [connectUpstream]. *)
Definition omitted (headerName : string) : bool :=
  Js.startsWith "sec-websocket" (Js.toLowerCase headerName)
  || String.eqb (Js.toLowerCase headerName) "connection"
  || String.eqb (Js.toLowerCase headerName) "upgrade".

(** [_.omitBy(object, predicate)] on an object given as its keys and values
    in order; the predicate here only reads the key. *)
Definition omitBy {V : Type} (object : list (string * V))
    (predicate : string → bool) : list (string * V) :=
  List.filter (λ kv, negb (predicate kv.1)) object.

Section Handler.
(** Node's [url.parse], on the strings that it accepts; [Parsing.handle]
    adds the strings on which it throws. *)
Variable url_parse : string → UrlParts.
(** [isLocalhostAddress] of [util/socket-util], not among the sources; it is
    called on the parsed host name (possibly [null]) and on the remote
    address. *)
Variable isLocalhostAddress : option string → bool.
(** [isHttp2] of [util/request-utils], not among the sources. *)
Variable isHttp2 : OngoingRequest → bool.
(** [rawHeadersToObjectPreservingCase] of [util/header-utils], not among the
    sources, with the type of the values of the object it builds. *)
Variable HeaderValue : Type.
Variable rawHeadersToObjectPreservingCase : RawHeaders → list (string * HeaderValue).

Definition hostHeaderName (req : OngoingRequest) : string :=
  if isHttp2 req then ":authority" else "host".

(** The first [if] of [handle]: local traffic of a remote machine goes back
    to that machine. *)
Definition localhost_rewrite (hostname : option string)
    (remoteIpAddress : option string) : option string :=
  if isLocalhostAddress hostname && Js.truthy_opt remoteIpAddress
     && negb (isLocalhostAddress remoteIpAddress)
  then remoteIpAddress else hostname.

(** Protocol, host name and port of the forwarding target: a target without
    [/] is [host[:port]] and keeps the protocol, another one is parsed as a
    URL. *)
Definition forward_target (protocol : option string) (targetHost : string)
    : option string * option string * option string :=
  if negb (Js.includes "/" targetHost) then
    let parts := Js.split ":"%char targetHost in
    (protocol, parts !! 0, parts !! 1)
  else
    let u := url_parse targetHost in
    (PassThrough.protocol u, PassThrough.hostname u, PassThrough.port u).

(** The Host header part of the forwarding branch: find the header or put
    [[hostHeaderName, hostname]] in front, then assign its value as
    [updateHostHeader] says. The raw headers are changed in place. *)
Definition update_host_header (raw : RawHeaders) (name : string)
    (hostname port : option string) (update : option UpdateHostHeader)
    : RawHeaders :=
  let '(raw1, i, key) :=
    match findRawHeader raw name with
    | Some (i, (k, _)) => (raw, i, k)
    | None => ((name, hostname) :: raw, 0, name)
    end in
  match update with
  | None | Some UpdateTrue =>
      <[i := (key, Some (Js.template hostname +:+ port_suffix port))]> raw1
  | Some (UpdateTo value) =>
      if Js.truthy value then <[i := (key, Some value)]> raw1 else raw1
  | Some UpdateFalse => raw1
  end.

(** [handle(req, socket, head)] up to its call of [connectUpstream]. *)
Definition handle (forwarding : option ForwardingOptions)
    (req : OngoingRequest) (socket : Socket) : handled :=
  let u := url_parse (url req) in
  let hostname := localhost_rewrite (hostname u) (remoteIpAddress req) in
  match forwarding with
  | Some f =>
      let '(protocol, hostname, port) := forward_target (protocol u) (targetHost f) in
      let wsUrl := Js.template protocol +:+ "//" +:+ Js.template hostname
                   +:+ port_suffix port +:+ Js.template (path u) in
      ConnectUpstream wsUrl
        (update_host_header (rawHeaders req) (hostHeaderName req)
                            hostname port (updateHostHeader f))
  | None =>
      if negb (Js.truthy_opt hostname) then
        match headers req (hostHeaderName req) with
        | Some hostHeader =>
            let parts := Js.split ":"%char hostHeader in
            let wsUrl := transparent_protocol socket +:+ "://"
                         +:+ Js.template (parts !! 0)
                         +:+ port_suffix (parts !! 1) +:+ Js.template (path u) in
            ConnectUpstream wsUrl (rawHeaders req)
        | None => TypeError
        end
      else
        match protocol u with
        | Some p =>
            let wsUrl := Js.replace "http" "ws" p +:+ "//" +:+ Js.template hostname
                         +:+ port_suffix (port u) +:+ Js.template (path u) in
            ConnectUpstream wsUrl (rawHeaders req)
        | None => TypeError
        end
  end.

(** The [headers] option that [connectUpstream] gives to the upstream
    WebSocket. *)
Definition upstream_headers (raw : RawHeaders) : list (string * HeaderValue) :=
  omitBy (rawHeadersToObjectPreservingCase raw) omitted.

(** The URL and the headers of the upstream WebSocket of a request. *)
Definition upstream (forwarding : option ForwardingOptions)
    (req : OngoingRequest) (socket : Socket)
    : option (string * list (string * HeaderValue)) :=
  match handle forwarding req socket with
  | ConnectUpstream wsUrl raw => Some (wsUrl, upstream_headers raw)
  | TypeError => None
  end.

End Handler.

End PassThrough.
(** ** The headers object given to the upstream WebSocket *)
Module HeaderUtils.

(** One more raw header put into a headers object: its value joins the
    values under its name as written, or its name becomes a new key at the
    end. *)
Fixpoint add_header (key : string) (value : option string)
    (object : list (string * list (option string)))
    : list (string * list (option string)) :=
  match object with
  | [] => [(key, [value])]
  | (k, vs) :: rest =>
      if String.eqb k key then (k, vs ++ [value]) :: rest
      else (k, vs) :: add_header key value rest
  end.

(** Modelled from the spec: [rawHeadersToObjectPreservingCase] of
    [util/header-utils] is not among the sources. The outbound headers are
    prepared from the raw headers of the request, preserving case: the
    object has one key for each header name as it is written, in the order
    in which the names first appear, and under it the values of the headers
    of that name, in order. *)
Definition rawHeadersToObjectPreservingCase (raw : list (string * option string))
    : list (string * list (option string)) :=
  fold_left (λ object kv, add_header kv.1 kv.2 object) raw [].



End HeaderUtils.

(** ** Values of the absent helpers for the example scenarios *)
Module Sample.
Import PassThrough.

(** What Node's [url.parse] gives for the URLs of the examples. *)
Definition url_parse (s : string) : UrlParts :=
  if String.eqb s "ws://localhost/x" then
    {| protocol := Some "ws:"; hostname := Some "localhost"; port := None;
       path := Some "/x" |}
  else if String.eqb s "ws://client.local/chat?x=1" then
    {| protocol := Some "ws:"; hostname := Some "client.local"; port := None;
       path := Some "/chat?x=1" |}
  else if String.eqb s "wss://example.com:8443/" then
    {| protocol := Some "wss:"; hostname := Some "example.com"; port := Some "8443";
       path := Some "/" |}
  else
    {| protocol := None; hostname := None; port := None; path := None |}.

(** Loopback names and addresses of the examples. *)
Definition isLocalhostAddress (host : option string) : bool :=
  match host with
  | Some h => String.eqb h "localhost" || String.eqb h "127.0.0.1" || String.eqb h "::1"
  | None => false
  end.

Definition isHttp2 (req : OngoingRequest) : bool := false.

Definition no_headers (name : string) : option string := None.

Definition plain_socket : Socket :=
  {| lastHopEncrypted := None; encrypted := false |}.

(** Scenario 4: forwarded chat request from [client.local]. *)
Definition chat_request : OngoingRequest :=
  {| url := "ws://client.local/chat?x=1";
     rawHeaders := [("Host", Some "client.local");
                    ("Upgrade", Some "websocket");
                    ("Connection", Some "Upgrade");
                    ("Sec-WebSocket-Key", Some "dGhlIHNhbXBsZSBub25jZQ==");
                    ("X-Trace", Some "abc")];
     headers := no_headers;
     remoteIpAddress := Some "127.0.0.1" |}.

(** Scenario 5: a request for [localhost] made from [10.0.0.5]. *)
Definition container_request : OngoingRequest :=
  {| url := "ws://localhost/x";
     rawHeaders := [("Host", Some "localhost")];
     headers := no_headers;
     remoteIpAddress := Some "10.0.0.5" |}.

End Sample.

(** ** Rule binding: what holds of the promises of a rule at any time *)
Module RuleInv.
Import Rule.

(** The promise of the async arrow function of [handle] at index [cp] and
    the cell [hp] of its handler's call, made just before it: the arrow function
    goes past its [await] only once [hp] is fulfilled, and is itself
    fulfilled only after that. *)
Definition async_ok (st : list cell) (cp : nat) (s : pstate) (pos : position) : Prop :=
  ∃ hp, cp = S hp
    ∧ (∃ s0, st !! hp = Some (Leaf s0))
    ∧ match pos with
      | AtAwaitHandler hp' => hp' = hp ∧ s = Pending
      | AtReturn _ => s = Pending ∧ st !! hp = Some (Leaf (Settled Fulfilled))
      | Finished => s = Settled Fulfilled → st !! hp = Some (Leaf (Settled Fulfilled))
      end.

Definition store_ok (w : world) : Prop :=
  ∀ cp s pos, store w !! cp = Some (Async s pos) → async_ok (store w) cp s pos.

(** The records are promises of arrow functions, at increasing indices. *)
Definition records_ok (w : world) : Prop :=
  (∀ cp, cp ∈ requests (rule w) → ∃ s pos, store w !! cp = Some (Async s pos))
  ∧ (∀ i j a b, i < j → requests (rule w) !! i = Some a →
                requests (rule w) !! j = Some b → a < b).

(** Two exchanges, the first not recorded; the handler of the second one
    fails and its arrow function is resumed. *)
Definition sample_events : list event :=
  [Dispatch (Returns Pending) false; Dispatch (Returns Pending) true;
   Settle 2 Rejected; Resume 3 Pending].

End RuleInv.

(** ** The frame pipe: data frames, pings and pongs, and the pipes that a
       connection gets *)
Module Relay.
Import Pipe.

(** [socket.readyState] *)
Inductive readyState := CONNECTING | OPEN | CLOSING | CLOSED.

(** [isOpen(socket)], on the ready state of the socket. *)
Definition isOpen (s : readyState) : bool :=
  match s with OPEN => true | _ => false end.

(** The events of the in socket that [pipeWebSocket] listens to. *)
Inductive ws_event :=
| EvMessage (msg : string) (isBinary : bool)
| EvClose (num : Z) (reason : string)
| EvPing (data : string)
| EvPong (data : string)
| EvError (message : string).

(** What the listeners of one pipe do, in order. *)
Inductive op :=
| Send (data : string) (binary : bool)  (* outSocket.send(msg, { binary: isBinary }, cb) *)
| Ping (data : string)                  (* outSocket.ping(data, undefined, cb) *)
| Pong (data : string)                  (* outSocket.pong(data, undefined, cb) *)
| CloseIn                               (* inSocket.close(), from onPipeFailed *)
| ConsoleError (operation : string)     (* console.error(`Websocket ${op} failed`, err) *)
| Control (e : effect).                 (* what the close and error listeners do *)

(** What the pipe cannot decide when an event arrives: the ready state of
    the out socket, whether the library reports a failure to the callback of
    the send, ping or pong, and whether its [close(code, reason)] raises. *)
Record env := mkEnv
  { out_state : readyState;
    send_fails : bool;
    close_raises : Z → string → bool }.

(** [onPipeFailed(op)(err)] *)
Definition onPipeFailed (operation : string) (err : bool) : list op :=
  if err then [CloseIn; ConsoleError operation] else [].

(** The five listeners that [pipeWebSocket(inSocket, outSocket)] installs. *)
Definition on_event (e : env) (ev : ws_event) : list op :=
  match ev with
  | EvMessage msg isBinary =>
      if isOpen (out_state e)
      then Send msg isBinary :: onPipeFailed "message" (send_fails e) else []
  | EvClose num reason => map Control (on_close (close_raises e) num reason)
  | EvPing data =>
      if isOpen (out_state e) then Ping data :: onPipeFailed "ping" (send_fails e) else []
  | EvPong data =>
      if isOpen (out_state e) then Pong data :: onPipeFailed "pong" (send_fails e) else []
  | EvError message => map Control (effects_of (on_error message))
  end.

(** The frames that the operations of a pipe put on the out socket, each as
    the event it will be for the peer, and the frames among events that
    arrived while the out socket was open. *)
Fixpoint relayed (ops : list op) : list ws_event :=
  match ops with
  | [] => []
  | Send d b :: rest => EvMessage d b :: relayed rest
  | Ping d :: rest => EvPing d :: relayed rest
  | Pong d :: rest => EvPong d :: relayed rest
  | _ :: rest => relayed rest
  end.

Definition is_frame (ev : ws_event) : bool :=
  match ev with
  | EvMessage _ _ | EvPing _ | EvPong _ => true
  | EvClose _ _ | EvError _ => false
  end.

Fixpoint received_while_open (evs : list (env * ws_event)) : list ws_event :=
  match evs with
  | [] => []
  | (e, ev) :: rest =>
      if is_frame ev && isOpen (out_state e) then ev :: received_while_open rest
      else received_while_open rest
  end.

(** *** Sockets and pipes

    A pipe is the pair of its in socket and its out socket; sockets are
    numbered. *)
Abbreviation pipe := (nat * nat)%type.

(** The socket that an operation of a pipe acts on. *)
Definition op_socket (p : pipe) (o : op) : option nat :=
  match o with
  | Send _ _ | Ping _ | Pong _ => Some p.2
  | CloseIn => Some p.1
  | ConsoleError _ => None
  | Control e =>
      match target e with
      | Some InSocket => Some p.1
      | Some OutSocket => Some p.2
      | None => None
      end
  end.

(** The state of the sockets and of the library when an event is emitted. *)
Record sys_env := mkSys
  { ready : nat → readyState;
    sys_send_fails : bool;
    sys_close_raises : Z → string → bool }.

(** An event emitted on socket [s]: the listeners of every pipe whose in
    socket is [s] run, in the order in which the pipes were installed. *)
Definition emit (pipes : list pipe) (e : sys_env) (s : nat) (ev : ws_event)
    : list (pipe * op) :=
  flat_map (λ p : pipe,
              if Nat.eqb p.1 s
              then map (pair p)
                     (on_event {| out_state := ready e p.2;
                                  send_fails := sys_send_fails e;
                                  close_raises := sys_close_raises e |} ev)
              else [])
           pipes.

(** That some operation among [ops] acts on socket [s]. *)
Definition operates_on (s : nat) (ops : list (pipe * op)) : Prop :=
  ∃ p o, (p, o) ∈ ops ∧ op_socket p o = Some s.

(** Every socket OPEN, and a library that reports no failure. *)
Definition open_env : sys_env :=
  {| ready := λ _, OPEN; sys_send_fails := false; sys_close_raises := λ _ _, false |}.

(** The ['connection'] listener of each handler, for the new downstream
    socket [ws] (and its [ws.upstreamWebSocket]): pass-through pipes both
    ways, echo pipes the socket to itself, listen only resumes it. *)
Definition passthrough_connection (ws upstream : nat) : list pipe :=
  [(ws, upstream); (upstream, ws)].

Definition echo_connection (ws : nat) : list pipe := [(ws, ws)].

Definition listen_connection (ws : nat) : list pipe := [].

(** A ['connection'] listener: the pipes it installs for the new socket
    [ws] and its [ws.upstreamWebSocket]. *)
Abbreviation listener := (nat → nat → list pipe).

(** [initializeWsServer()] with the listener of the handler: the [wsServer]
    field is absent or a server, given by its ['connection'] listeners. *)
Definition initializeWsServer (l : listener) (wsServer : option (list listener))
    : option (list listener) :=
  match wsServer with
  | Some server => Some server
  | None => Some [l]
  end.

(** [wsServer.emit('connection', ws)]: every listener installs its pipes. *)
Definition on_connection (wsServer : option (list listener)) (ws upstream : nat)
    : list pipe :=
  match wsServer with
  | Some listeners => flat_map (λ l : listener, l ws upstream) listeners
  | None => []
  end.

End Relay.

(** ** Pass-through: the port and the trusted certificates of the upstream
       connection *)
Module Upstream.
Import PassThrough Http.

(** [effectivePort] of [connectUpstream], from the parsed upstream URL, whose
    port is a string of digits when present; [None] is NaN. *)
Definition effectivePort (parsedUrl : UrlParts) : option N :=
  if Js.truthy_opt (port parsedUrl)
  then Js.parseInt (Js.template (port parsedUrl))
  else if match protocol parsedUrl with
          | Some p => String.eqb p "wss:"
          | None => false
          end
       then Some 443%N else Some 80%N.

(** [CADefinition]: a certificate given in place, or the path of its file. *)
Inductive CADefinition :=
| CertGiven (cert : string)     (* { cert } *)
| CertPath (certPath : string). (* { certPath } *)

(** [Promise.all]: the values when every promise resolves, a rejection as
    soon as one of them is rejected. *)
Fixpoint promise_all {A : Type} (ps : list (awaited A)) : awaited (list A) :=
  match ps with
  | [] => Resolves []
  | Resolves a :: rest =>
      match promise_all rest with
      | Resolves l => Resolves (a :: l)
      | Rejects => Rejects
      end
  | Rejects :: _ => Rejects
  end.

Definition awaited_map {A B : Type} (f : A → B) (p : awaited A) : awaited B :=
  match p with Resolves a => Resolves (f a) | Rejects => Rejects end.

(** The fields of the handler that [trustedCACertificates] uses; the
    memoized promise is given by what it settles to. *)
Record CaFields := mkCa
  { extraCACertificates : list CADefinition;
    _trustedCACertificates : option (awaited (list string)) }.

(** The files that [fs.readFile] is called on for a list of definitions. *)
Fixpoint cert_paths (extra : list CADefinition) : list string :=
  match extra with
  | [] => []
  | CertGiven _ :: rest => cert_paths rest
  | CertPath p :: rest => p :: cert_paths rest
  end.

Section TrustedCAs.
(** [tls.rootCertificates] *)
Variable rootCertificates : list string.
(** [fs.readFile(path, 'utf8')] at the time of a call. *)
Variable readFile : string → awaited string.

Definition ca_source (c : CADefinition) : awaited string :=
  match c with
  | CertGiven cert => Resolves cert
  | CertPath certPath => readFile certPath
  end.

(** [trustedCACertificates()]: what the returned promise settles to
    ([Resolves None] is [undefined]), the fields after the call, and the
    files read during the call. *)
Definition trustedCACertificates (h : CaFields)
    : awaited (option (list string)) * CaFields * list string :=
  match extraCACertificates h with
  | [] => (Resolves None, h, [])
  | _ :: _ =>
      match _trustedCACertificates h with
      | Some p => (awaited_map Some p, h, [])
      | None =>
          let p := promise_all (map Resolves rootCertificates
                                ++ map ca_source (extraCACertificates h)) in
          (awaited_map Some p,
           {| extraCACertificates := extraCACertificates h;
              _trustedCACertificates := Some p |},
           cert_paths (extraCACertificates h))
      end
  end.
End TrustedCAs.

End Upstream.

(** ** Pass-through: [handle] with a [url.parse] that can throw *)
Module Parsing.
Import PassThrough.

(** What [handle] ends with: what it does once its URLs are parsed, or the
    exception that [url.parse] throws on the URL of the request (line 341)
    or on the forwarding target (line 366). Nothing is changed before either
    call. *)
Inductive outcome :=
| Completed (h : handled)
| ParseError.

Definition no_parts : UrlParts :=
  {| protocol := None; hostname := None; port := None; path := None |}.

Section Handler.
(** Node's [url.parse]; [None] when it throws. *)
Variable parse : string → option UrlParts.
Variable isLocalhostAddress : option string → bool.
Variable isHttp2 : OngoingRequest → bool.

(** The parts of a string that [url.parse] accepts. *)
Definition parts (s : string) : UrlParts := default no_parts (parse s).

(** [handle(req, socket, head)] up to its call of [connectUpstream]. *)
Definition handle (forwarding : option ForwardingOptions)
    (req : OngoingRequest) (socket : Socket) : outcome :=
  match parse (url req) with
  | None => ParseError
  | Some _ =>
      match forwarding with
      | Some f =>
          if Js.includes "/" (targetHost f) then
            match parse (targetHost f) with
            | None => ParseError
            | Some _ =>
                Completed (PassThrough.handle parts isLocalhostAddress isHttp2
                                              forwarding req socket)
            end
          else Completed (PassThrough.handle parts isLocalhostAddress isHttp2
                                             forwarding req socket)
      | None => Completed (PassThrough.handle parts isLocalhostAddress isHttp2
                                              forwarding req socket)
      end
  end.
End Handler.


End Parsing.

(** ** Facts about the string helpers *)
Module JsFacts.
Import Js.

Lemma strip_prefix_app (p s : string) : strip_prefix p (p +:+ s) = Some s.
Proof.
  induction p as [|a p IH]; simpl; [reflexivity|].
  rewrite Ascii.eqb_refl. exact IH.
Qed.

Lemma take_digits_string_of_uint (d : Decimal.uint) :
  take_digits (NilEmpty.string_of_uint d) = NilEmpty.string_of_uint d.
Proof. induction d; simpl; try rewrite IHd; reflexivity. Qed.

Lemma string_of_uint_nonempty (d : Decimal.uint) :
  d ≠ Decimal.Nil → NilEmpty.string_of_uint d ≠ "".
Proof. destruct d; simpl; intros H; try discriminate. now contradict H. Qed.

Lemma to_uint_nonnil (n : N) : N.to_uint n ≠ Decimal.Nil.
Proof.
  destruct n as [|p]; simpl; [discriminate|].
  apply DecimalPos.Unsigned.to_uint_nonnil.
Qed.

Lemma num_to_string_nonempty (n : N) : num_to_string n ≠ "".
Proof. apply string_of_uint_nonempty, to_uint_nonnil. Qed.

Lemma take_digits_num_to_string (n : N) :
  take_digits (num_to_string n) = num_to_string n.
Proof. apply take_digits_string_of_uint. Qed.

(** Reading back the decimal rendering of a number gives the number. *)
Lemma parseInt_num_to_string (n : N) : parseInt (num_to_string n) = Some n.
Proof.
  unfold parseInt. rewrite take_digits_num_to_string.
  pose proof (num_to_string_nonempty n) as Hne.
  destruct (num_to_string n) as [|c r] eqn:E; [congruence|].
  rewrite <- E. unfold num_to_string. rewrite NilEmpty.usu. simpl.
  now rewrite DecimalN.Unsigned.of_to.
Qed.

End JsFacts.

(** ** The frame pipe: close frames and transport errors *)
Module PipeFacts.
Import Js JsFacts Pipe.

Lemma isValidStatusCode_spec (c : Z) :
  isValidStatusCode c = true ↔
  ((1000 ≤ c ≤ 1014)%Z ∧ c ≠ 1004%Z ∧ c ≠ 1005%Z ∧ c ≠ 1006%Z) ∨ (3000 ≤ c ≤ 4999)%Z.
Proof.
  unfold isValidStatusCode.
  rewrite orb_true_iff, !andb_true_iff, !negb_true_iff, !Z.leb_le, !Z.eqb_neq.
  lia.
Qed.

Lemma exec_of_match_here (s ds : string) :
  invalid_status_here s = Some ds → INVALID_STATUS_REGEX_exec s = Some ds.
Proof.
  intros H. destruct s as [|a s]; [vm_compute in H; discriminate|].
  cbn [INVALID_STATUS_REGEX_exec]. now rewrite H.
Qed.

Lemma exec_vendor_message (n : N) :
  INVALID_STATUS_REGEX_exec (vendor_invalid_status_message n) = Some (num_to_string n).
Proof.
  apply exec_of_match_here. unfold invalid_status_here, vendor_invalid_status_message.
  rewrite strip_prefix_app, take_digits_num_to_string.
  pose proof (num_to_string_nonempty n).
  now destruct (num_to_string n).
Qed.


(** C1. A close frame received on the in socket with status code [c] and
    reason [r] is forwarded to the out socket as [close(c, r)] exactly when
    [c] is in [1000,1014] without 1004, 1005 and 1006, or in [3000,4999];
    when that call raises, a bare [close()] follows on the out socket; for
    every other code the out socket gets a bare [close()] and nothing else. *)
Theorem close_frame_forwarding (close_raises : Z → string → bool) (c : Z) (r : string) :
  (((1000 ≤ c ≤ 1014)%Z ∧ c ≠ 1004%Z ∧ c ≠ 1005%Z ∧ c ≠ 1006%Z) ∨ (3000 ≤ c ≤ 4999)%Z →
     (close_raises c r = false →
        on_close close_raises c r = [Close OutSocket c r]) ∧
     (close_raises c r = true →
        on_close close_raises c r =
          [CloseRaised OutSocket c r; ConsoleWarn; CloseBare OutSocket]))
  ∧ (¬ (((1000 ≤ c ≤ 1014)%Z ∧ c ≠ 1004%Z ∧ c ≠ 1005%Z ∧ c ≠ 1006%Z)
        ∨ (3000 ≤ c ≤ 4999)%Z) →
     on_close close_raises c r = [CloseBare OutSocket]).
Proof.
  unfold on_close. split.
  - intros Hv. apply isValidStatusCode_spec in Hv. rewrite Hv.
    split; intros ->; reflexivity.
  - intros Hv. rewrite <- isValidStatusCode_spec in Hv.
    destruct (isValidStatusCode c); [now contradict Hv | reflexivity].
Qed.

Lemma close_frame_forwarding_witness :
  on_close (λ _ _, false) 1000 "bye" = [Close OutSocket 1000 "bye"]
  ∧ on_close (λ _ _, true) 4999 "" =
      [CloseRaised OutSocket 4999 ""; ConsoleWarn; CloseBare OutSocket]
  ∧ on_close (λ _ _, false) 1005 "" = [CloseBare OutSocket].
Proof.
  split; [|split].
  - apply (close_frame_forwarding (λ _ _, false) 1000 "bye"); [lia | reflexivity].
  - apply (close_frame_forwarding (λ _ _, true) 4999 ""); [lia | reflexivity].
  - apply (close_frame_forwarding (λ _ _, false) 1005 ""). lia.
Defined.

Lemma on_error_targets (m : string) (e : effect) :
  e ∈ effects_of (on_error m) → target e ≠ Some InSocket.
Proof.
  unfold on_error. intros Hin. apply list_elem_of_In in Hin.
  destruct (INVALID_STATUS_REGEX_exec m) as [ds|];
    [destruct (parseInt ds) as [st|]; [destruct (writeUInt16BE st)|]|];
    simpl in Hin; intuition (subst; discriminate).
Qed.


(** On an echo pipe the in socket and the out socket are one socket, and
    there the same listener destroys the raw socket of the socket the error
    came from. *)
Example error_on_echo_pipe :
  Relay.operates_on 7
    (Relay.emit (Relay.echo_connection 7) Relay.open_env 7
                (Relay.EvError "read ECONNRESET")).
Proof.
  exists (7, 7), (Relay.Control (DestroyRaw OutSocket)).
  split; [|reflexivity]. apply list_elem_of_In. simpl. auto.
Qed.



(** A status beyond 16 bits does not fit the buffer: [writeUInt16BE] raises
    and the handler stops after its log line. *)
Example error_status_out_of_range :
  on_error "Invalid WebSocket frame: invalid status code 70000" = Raised [ConsoleLog].
Proof. reflexivity. Qed.

End PipeFacts.

(** ** Rule binding: the request counter, the records and completion *)
Module RuleFacts.
Import Rule.

Lemma rule_settle (p : nat) (s : settlement) (w : world) :
  rule (settle p s w) = rule w.
Proof.
  unfold settle. destruct (store w !! p) as [[[|]|]|]; reflexivity.
Qed.

Lemma rule_resume (cp : nat) (w0 : pstate) (w : world) :
  rule (resume cp w0 w) = rule w.
Proof.
  unfold resume.
  destruct (store w !! cp) as [[|[|] [hp|wp|]]|]; try reflexivity.
  - destruct (cell_state <$> store w !! hp) as [[|[|]]|]; reflexivity.
  - destruct (cell_state <$> store w !! wp) as [[|]|]; reflexivity.
Qed.

(** Settling the handler's promise does not settle [completedPromise]: the
    promise in the records stays as it is until the job queue resumes the
    arrow function. *)
Lemma settle_keeps_async (p cp : nat) (s : settlement) (st : pstate)
    (pos : position) (w : world) :
  store w !! cp = Some (Async st pos) →
  store (settle p s w) !! cp = Some (Async st pos).
Proof.
  intros H. unfold settle.
  destruct (store w !! p) as [[[|]|]|] eqn:E; try exact H. simpl.
  rewrite list_lookup_insert_ne; [exact H|]. intros ->. congruence.
Qed.

(** One event: the counter, the records and the checker after it. *)
Lemma step_rule (e : event) (w : world) :
  requestCount (rule (step e w).1)
    = requestCount (rule w) + (if is_dispatch e then 1 else 0)
  ∧ requests (rule (step e w).1)
    = requests (rule w)
      ++ recorded (match (step e w).2 with Some d => [d] | None => [] end)
  ∧ completionChecker (rule (step e w).1) = completionChecker (rule w).
Proof.
  destruct e as [h0 record|p s|cp w0]; simpl.
  - destruct record; simpl; repeat split; try reflexivity.
    now rewrite app_nil_r.
  - rewrite rule_settle, app_nil_r. repeat split; lia.
  - rewrite rule_resume, app_nil_r. repeat split; lia.
Qed.

Lemma recorded_app (l1 l2 : list (bool * nat)) :
  recorded (l1 ++ l2) = recorded l1 ++ recorded l2.
Proof.
  induction l1 as [|[[|] cp] l1 IH]; simpl; [reflexivity| |]; now rewrite IH.
Qed.

Lemma run_cons (e : event) (es : list event) (w : world) :
  run (e :: es) w =
    ((run es (step e w).1).1,
     match (step e w).2 with Some d => [d] | None => [] end ++ (run es (step e w).1).2).
Proof.
  simpl. destruct (step e w) as [w1 l1]. simpl.
  destruct (run es w1) as [w2 l2]. simpl. now destruct l1.
Qed.

Lemma run_rule (es : list event) (w : world) :
  requestCount (rule (run es w).1) = requestCount (rule w) + invocations es
  ∧ requests (rule (run es w).1) = requests (rule w) ++ recorded (run es w).2
  ∧ completionChecker (rule (run es w).1) = completionChecker (rule w).
Proof.
  revert w. induction es as [|e es IH]; intros w.
  - simpl. rewrite app_nil_r. repeat split; unfold invocations; simpl; lia.
  - rewrite run_cons. cbn [fst snd].
    destruct (IH (step e w).1) as (Hc & Hr & Hk).
    destruct (step_rule e w) as (Hc1 & Hr1 & Hk1).
    rewrite Hc, Hr, Hk, Hc1, Hr1, Hk1, recorded_app, app_assoc.
    repeat split. unfold invocations. simpl.
    destruct (is_dispatch e); simpl; lia.
Qed.

(** C2. The counter of a new rule is zero, and after any finite sequence of
    events (dispatches with either record flag and any state of the
    handler's promise, settlements with success or failure, resumptions) it
    has grown by the number of [handle] invocations in the sequence. *)
Theorem requestCount_counts_invocations (checker : option (nat → bool))
    (es : list event) (w : world) :
  requestCount (new_rule checker) = 0
  ∧ requestCount (rule (run es (new_world checker)).1) = invocations es
  ∧ requestCount (rule (run es w).1) = requestCount (rule w) + invocations es.
Proof.
  split; [reflexivity|]. split.
  - now rewrite (proj1 (run_rule es (new_world checker))).
  - apply run_rule.
Qed.

(** C3, counterexample. A handler whose [handle] throws before returning a
    promise: the entry pushed to the records is already rejected, not
    pending. *)
Lemma record_of_throwing_handler_is_settled :
  requests (rule (handle Throws true (new_world None)).1) = [1]
  ∧ cell_state <$> store (handle Throws true (new_world None)).1 !! 1
    = Some (Settled Rejected)
  ∧ cell_state <$> store (handle Throws true (new_world None)).1 !! 1 ≠ Some Pending.
Proof. repeat split; (reflexivity || discriminate). Qed.

(** C3, amended. An invocation of [handle] with [record = true] appends
    exactly one entry to the records, the promise it returns. When the call
    of the handler returns, that promise is pending at that point, whatever
    the state of the handler's own promise; when the call throws, it is
    already rejected. With [record = false] the records are unchanged. Over
    any sequence of events the records are the promises of the recording
    invocations in dispatch order, appended to what was there. *)
Theorem records_grow_in_dispatch_order (h : handler_call) (h0 : pstate)
    (es : list event) (w : world) :
  (requests (rule (handle h true w).1)
     = requests (rule w) ++ [(handle h true w).2]
   ∧ length (requests (rule (handle h true w).1)) = S (length (requests (rule w)))
   ∧ cell_state <$> store (handle (Returns h0) true w).1 !! (handle (Returns h0) true w).2
     = Some Pending
   ∧ cell_state <$> store (handle Throws true w).1 !! (handle Throws true w).2
     = Some (Settled Rejected))
  ∧ requests (rule (handle h false w).1) = requests (rule w)
  ∧ requests (rule (run es w).1) = requests (rule w) ++ recorded (run es w).2.
Proof.
  assert (Hlook : ∀ (l : list cell) c1 c2, (l ++ [c1; c2]) !! S (length l) = Some c2).
  { intros l c1 c2. rewrite lookup_app_r by lia.
    now replace (S (length l) - length l) with 1 by lia. }
  split; [|split].
  - simpl. repeat split.
    + rewrite length_app. simpl. lia.
    + now rewrite Hlook.
    + now rewrite Hlook.
  - reflexivity.
  - apply run_rule.
Qed.

(** C9, counterexample. A rule without a completion checker answers
    [null], which is not [undefined]. *)
Lemma isComplete_without_checker_is_null :
  isComplete (new_rule None) = JNull ∧ isComplete (new_rule None) ≠ JUndefined.
Proof. split; [reflexivity | discriminate]. Qed.

(** C9, amended. [isComplete()] is [null] when the rule has no completion
    checker; otherwise it is the checker's answer for the current request
    counter, which after a sequence of events on a new rule is the number
    of [handle] invocations. *)
Theorem isComplete_delegates (r : MockRule) :
  (completionChecker r = None → isComplete r = JNull)
  ∧ (∀ checker, completionChecker r = Some checker →
       isComplete r = JBool (checker (requestCount r)))
  ∧ (∀ checker es,
       r = rule (run es (new_world (Some checker))).1 →
       isComplete r = JBool (checker (invocations es))).
Proof.
  unfold isComplete. repeat split.
  - now intros ->.
  - now intros checker ->.
  - intros checker es ->.
    destruct (run_rule es (new_world (Some checker))) as (-> & _ & ->).
    reflexivity.
Qed.

Lemma isComplete_delegates_witness :
  isComplete (new_rule None) = JNull
  ∧ isComplete (rule (run [Dispatch (Returns Pending) false; Dispatch (Returns Pending) true]
                          (new_world (Some (Nat.leb 2)))).1) = JBool true.
Proof.
  split.
  - apply (proj1 (isComplete_delegates (new_rule None))). reflexivity.
  - apply (proj2 (proj2 (isComplete_delegates
             (rule (run [Dispatch (Returns Pending) false; Dispatch (Returns Pending) true]
                        (new_world (Some (Nat.leb 2)))).1)))
             (Nat.leb 2) [Dispatch (Returns Pending) false; Dispatch (Returns Pending) true]).
    reflexivity.
Defined.

End RuleFacts.

(** ** Raw HTTP responses: the reject handler and mirrored rejections *)
Module HttpFacts.
Import Js JsFacts Http.

Lemma append_nil_r (s : string) : s +:+ "" = s.
Proof.
  induction s as [|a s IH]; [reflexivity|].
  change (String a (s +:+ "") = String a s). now rewrite IH.
Qed.

Lemma append_assoc (s1 s2 s3 : string) : (s1 +:+ s2) +:+ s3 = s1 +:+ s2 +:+ s3.
Proof.
  induction s1 as [|a s1 IH]; [reflexivity|].
  change (String a ((s1 +:+ s2) +:+ s3) = String a (s1 +:+ s2 +:+ s3)).
  now rewrite IH.
Qed.

Lemma written_app (l1 l2 : list sockop) :
  written (l1 ++ l2) = written l1 +:+ written l2.
Proof.
  induction l1 as [|[d| | | |] l1 IH]; simpl; try assumption; [reflexivity|].
  now rewrite IH, append_assoc.
Qed.

(** C8. The reject handler only writes to the socket and then destroys it:
    no upgrade is handed to a WebSocket server. The bytes written are the
    status line [HTTP/1.1 code message] with CRLF, the headers as
    [name: value] joined by CRLF, CRLF CRLF, the body (nothing for an empty
    one) and a last CRLF. For the 418 scenario they are
    [HTTP/1.1 418 I'm a teapot CRLF X-Foo: bar CRLF CRLF nope CRLF]. *)
Theorem reject_writes_raw_response (h : RejectWebSocketHandler) :
  (∃ writes, reject_handle h = map SockWrite writes ++ [SockDestroy])
  ∧ (HandleUpgrade ∉ reject_handle h)
  ∧ written (reject_handle h) =
      ("HTTP/1.1 " +:+ num_to_string (statusCode h) +:+ " " +:+ statusMessage h +:+ CRLF)
      +:+ join CRLF (map (λ kv, kv.1 +:+ ": " +:+ kv.2) (headers h))
      +:+ (CRLF +:+ CRLF)
      +:+ body_bytes (body h)
      +:+ CRLF
  ∧ written (reject_handle teapot) =
      "HTTP/1.1 418 I'm a teapot" +:+ CRLF +:+ "X-Foo: bar" +:+ CRLF +:+ CRLF
      +:+ "nope" +:+ CRLF.
Proof.
  split; [|split; [|split]].
  - unfold reject_handle. destruct (body_truthy (body h)).
    + now eexists [_; _; _].
    + now eexists [_; _].
  - unfold reject_handle. intros Hin.
    apply list_elem_of_In in Hin.
    destruct (body_truthy (body h)); simpl in Hin;
      intuition discriminate.
  - unfold reject_handle, rawResponse, objectHeadersToRaw, header_line.
    rewrite !written_app.
    assert (Hbody : written (if body_truthy (body h)
                             then [SockWrite (body_bytes (body h))] else [])
                    = body_bytes (body h)).
    { destruct (body h) as [[|a s]|bytes]; simpl; try reflexivity;
        apply append_nil_r. }
    rewrite Hbody. simpl written. rewrite !append_nil_r, !append_assoc.
    reflexivity.
  - reflexivity.
Qed.

(** The echo and listen handlers, by contrast, hand the upgrade to their
    WebSocket server and write nothing themselves. *)
Example echo_and_listen_upgrade :
  HandleUpgrade ∈ echo_handle ∧ HandleUpgrade ∈ listen_handle
  ∧ written echo_handle = "" ∧ written listen_handle = "".
Proof. repeat split; apply list_elem_of_In; simpl; auto. Qed.

(** The parts of C10 that the code keeps. When reading the upstream body
    succeeds, or the socket is not writable on entry, [mirrorRejection]
    ends with the destruction of the socket; the status line has 500 for a
    missing status code and [Unknown error] for a missing status message;
    the body is written exactly when the socket is writable after the
    read. *)
Lemma mirrorRejection_after_body (pair : list string → RawHeaders)
    (writable0 writable1 : bool) (res : IncomingMessage) (b : string) :
  let ops := (mirrorRejection pair writable0 res (Resolves b) writable1).1 in
  let head := rawResponse (status_or_500 (res_statusCode res))
                (message_or_unknown (res_statusMessage res))
                (pair (res_rawHeaders res)) in
  last ops = Some SockDestroy
  ∧ written ops = (if writable0 then head +:+ (if writable1 then b else "") else "").
Proof.
  unfold mirrorRejection. destruct writable0, writable1; simpl; split;
    try reflexivity; now rewrite ?append_nil_r.
Qed.

Example mirrorRejection_defaults (pair : list string → RawHeaders) (b : string) :
  mirrorRejection pair true
    {| res_statusCode := None; res_statusMessage := None; res_rawHeaders := [] |}
    (Resolves b) true
  = ([SockWrite (("HTTP/1.1 500 Unknown error" +:+ CRLF)
                 +:+ join CRLF (map header_line (pair [])) +:+ (CRLF +:+ CRLF));
      SockWrite b; SockDestroy], true).
Proof. reflexivity. Qed.

(** C10, the failing case. When the socket is writable and reading the
    upstream body fails, [mirrorRejection] has written the response head,
    its promise is rejected, and the socket is never destroyed. *)
Theorem mirrorRejection_body_failure (pair : list string → RawHeaders)
    (res : IncomingMessage) (writable1 : bool) :
  mirrorRejection pair true res Rejects writable1 =
    ([SockWrite (rawResponse (status_or_500 (res_statusCode res))
                   (message_or_unknown (res_statusMessage res))
                   (pair (res_rawHeaders res)))], false)
  ∧ (SockDestroy ∉ (mirrorRejection pair true res Rejects writable1).1).
Proof.
  split; [reflexivity|]. simpl. intros Hin.
  apply list_elem_of_In in Hin. simpl in Hin. intuition discriminate.
Qed.

End HttpFacts.

(** ** The headers object: stripping before or after the conversion *)
Module HeaderFacts.
Import Js HeaderUtils PassThrough.












End HeaderFacts.

(** ** Pass-through: upstream headers, the Host header and the target *)
Module PassThroughFacts.
Import Js JsFacts PassThrough.

Lemma hostHeaderName_lower (isHttp2 : OngoingRequest → bool) (req : OngoingRequest) :
  toLowerCase (hostHeaderName isHttp2 req) = hostHeaderName isHttp2 req.
Proof. unfold hostHeaderName. now destruct (isHttp2 req). Qed.

Lemma findRawHeader_Some (raw : RawHeaders) (name : string) i k v :
  findRawHeader raw name = Some (i, (k, v)) →
  raw !! i = Some (k, v) ∧ is_named name (k, v) = true.
Proof.
  revert i. induction raw as [|[k0 v0] raw IH]; intros i; simpl; [discriminate|].
  destruct (String.eqb (toLowerCase k0) name) eqn:E.
  - intros [= <- <- <-]. split; [reflexivity | exact E].
  - destruct (findRawHeader raw name) as [[j [k1 v1]]|]; simpl; [|discriminate].
    intros [= <- <- <-]. now apply IH.
Qed.

Lemma findRawHeader_insert (raw : RawHeaders) (name : string) i k v v' :
  findRawHeader raw name = Some (i, (k, v)) →
  findRawHeader (<[i := (k, v')]> raw) name = Some (i, (k, v')).
Proof.
  revert i. induction raw as [|[k0 v0] raw IH]; intros i; simpl; [discriminate|].
  destruct (String.eqb (toLowerCase k0) name) eqn:E.
  - intros [= <- <- <-]. simpl. now rewrite E.
  - destruct (findRawHeader raw name) as [[j [k1 v1]]|] eqn:F; simpl; [|discriminate].
    intros [= <- <- <-]. simpl. rewrite E.
    now rewrite (IH j eq_refl).
Qed.

Lemma findRawHeader_cons_self (raw : RawHeaders) (name : string) v :
  toLowerCase name = name →
  findRawHeader ((name, v) :: raw) name = Some (0, (name, v)).
Proof. intros H. simpl. now rewrite H, String.eqb_refl. Qed.




Lemma update_host_header_found (raw : RawHeaders) (name : string)
    (h p : option string) (u : option UpdateHostHeader) i k old :
  findRawHeader raw name = Some (i, (k, old)) →
  update_host_header raw name h p u = <[i := (k, host_value old h p u)]> raw
  ∧ findRawHeader (update_host_header raw name h p u) name
    = Some (i, (k, host_value old h p u)).
Proof.
  intros F. destruct (findRawHeader_Some _ _ _ _ _ F) as [Hi _].
  assert (E : update_host_header raw name h p u = <[i := (k, host_value old h p u)]> raw).
  { unfold update_host_header, host_value. rewrite F.
    destruct u as [[| |s]|]; [| |destruct (truthy s)|];
      (reflexivity || now rewrite list_insert_id). }
  split; [exact E|]. rewrite E. now apply findRawHeader_insert with (v := old).
Qed.

Lemma update_host_header_absent (raw : RawHeaders) (name : string)
    (h p : option string) (u : option UpdateHostHeader) :
  toLowerCase name = name →
  findRawHeader raw name = None →
  update_host_header raw name h p u = (name, host_value h h p u) :: raw
  ∧ findRawHeader (update_host_header raw name h p u) name
    = Some (0, (name, host_value h h p u)).
Proof.
  intros Hl F.
  assert (E : update_host_header raw name h p u = (name, host_value h h p u) :: raw).
  { unfold update_host_header, host_value. rewrite F.
    destruct u as [[| |s]|]; [| |destruct (truthy s)|]; reflexivity. }
  split; [exact E|]. rewrite E. now apply findRawHeader_cons_self.
Qed.

Section Handler.
Context (url_parse : string → UrlParts)
        (isLocalhostAddress : option string → bool)
        (isHttp2 : OngoingRequest → bool).

Abbreviation handle := (handle url_parse isLocalhostAddress isHttp2).
Abbreviation upstream :=
  (upstream url_parse isLocalhostAddress isHttp2 _
            HeaderUtils.rawHeadersToObjectPreservingCase).
Abbreviation hostHeaderName := (hostHeaderName isHttp2).



(** C6, amended. With forwarding configured, [handle] always reaches
    [connectUpstream], and the raw headers it passes on have a Host
    ([:authority] for HTTP/2) header: the first such header of the request,
    at its place and with its name as written, or else a new header in
    front. For a target without [/] the new host name and port are the
    parts of the target around its first colons, otherwise those of the
    parsed target URL. If [updateHostHeader] is true or absent the value is
    the new host name, followed by a colon and the port when the port is
    not empty; if it is a non-empty string the value is that string; if it
    is false or the empty string the value is the one the request had, or
    the new host name for a header that had to be inserted. *)
Theorem forwarding_sets_host_header (f : ForwardingOptions) req socket :
  let name := hostHeaderName req in
  let target := forward_target url_parse (protocol (url_parse (url req))) (targetHost f) in
  let h := target.1.2 in
  let p := target.2 in
  ∃ wsUrl raw' i key v,
    handle (Some f) req socket = ConnectUpstream wsUrl raw'
    ∧ findRawHeader raw' name = Some (i, (key, v))
    ∧ match findRawHeader (rawHeaders req) name with
      | Some (i0, (k0, _)) =>
          i = i0 ∧ key = k0 ∧ raw' = <[i0 := (k0, v)]> (rawHeaders req)
      | None => i = 0 ∧ key = name ∧ raw' = (name, v) :: rawHeaders req
      end
    ∧ (includes "/" (targetHost f) = false →
         h = split ":" (targetHost f) !! 0 ∧ p = split ":" (targetHost f) !! 1)
    ∧ (includes "/" (targetHost f) = true →
         h = hostname (url_parse (targetHost f)) ∧ p = port (url_parse (targetHost f)))
    ∧ (updateHostHeader f = None ∨ updateHostHeader f = Some UpdateTrue →
         v = Some (template h +:+ (if truthy_opt p then ":" +:+ template p else "")))
    ∧ (∀ s, updateHostHeader f = Some (UpdateTo s) → s ≠ "" → v = Some s)
    ∧ (updateHostHeader f = Some UpdateFalse ∨ updateHostHeader f = Some (UpdateTo "") →
         v = match findRawHeader (rawHeaders req) name with
             | Some (_, (_, old)) => old
             | None => h
             end).
Proof.
  intros name target h p. subst name.
  assert (Htarget : target = (target.1.1, h, p)) by now destruct target as [[? ?] ?].
  set (old := match findRawHeader (rawHeaders req) (hostHeaderName req) with
              | Some (_, (_, o)) => o
              | None => h
              end).
  set (v := host_value old h p (updateHostHeader f)).
  set (raw' := update_host_header (rawHeaders req) (hostHeaderName req) h p
                 (updateHostHeader f)).
  assert (Hfind : ∃ i key,
             findRawHeader raw' (hostHeaderName req) = Some (i, (key, v))
             ∧ match findRawHeader (rawHeaders req) (hostHeaderName req) with
               | Some (i0, (k0, _)) =>
                   i = i0 ∧ key = k0 ∧ raw' = <[i0 := (k0, v)]> (rawHeaders req)
               | None => i = 0 ∧ key = hostHeaderName req
                         ∧ raw' = (hostHeaderName req, v) :: rawHeaders req
               end).
  { subst raw' v old.
    destruct (findRawHeader (rawHeaders req) (hostHeaderName req))
      as [[i0 [k0 o]]|] eqn:F.
    - destruct (update_host_header_found _ _ h p (updateHostHeader f) _ _ _ F)
        as [E1 E2].
      exists i0, k0. now rewrite E2, E1.
    - destruct (update_host_header_absent _ _ h p (updateHostHeader f)
                  (hostHeaderName_lower isHttp2 req) F) as [E1 E2].
      exists 0, (hostHeaderName req). now rewrite E2, E1. }
  destruct Hfind as (i & key & Hf1 & Hf2).
  eexists _, raw', i, key, v.
  split; [|split; [exact Hf1|split; [exact Hf2|]]].
  - unfold PassThrough.handle. fold target. rewrite Htarget. reflexivity.
  - subst h p target. unfold forward_target.
    split; [intros ->; now simpl|]. split; [intros ->; now simpl|].
    subst v. unfold host_value, port_suffix.
    split; [intros [->| ->]; reflexivity|].
    split.
    + intros s -> Hs. destruct s; [contradiction|reflexivity].
    + intros [->| ->]; reflexivity.
Qed.

(** C7, amended. Without forwarding, for a request whose parsed host name
    is a loopback address, whose remote address is present, not empty and
    not a loopback address, and whose URL has a protocol, the host name is
    replaced by the remote address: the upstream URL is the protocol with
    [http] replaced by [ws], [//], the remote address, the port if any and
    the path; the raw headers, Host included, are passed on unchanged. *)
Theorem localhost_target_is_remote_address req socket ip proto :
  isLocalhostAddress (hostname (url_parse (url req))) = true →
  remoteIpAddress req = Some ip →
  ip ≠ "" →
  isLocalhostAddress (Some ip) = false →
  protocol (url_parse (url req)) = Some proto →
  localhost_rewrite isLocalhostAddress (hostname (url_parse (url req)))
                    (remoteIpAddress req) = Some ip
  ∧ handle None req socket =
      ConnectUpstream
        (replace "http" "ws" proto +:+ "//" +:+ ip
         +:+ (if truthy_opt (port (url_parse (url req)))
              then ":" +:+ template (port (url_parse (url req))) else "")
         +:+ template (path (url_parse (url req))))
        (rawHeaders req).
Proof.
  intros Hlocal Hremote Hip Hnot Hproto.
  assert (Ht : truthy ip = true) by (destruct ip; [contradiction|reflexivity]).
  assert (Hrw : localhost_rewrite isLocalhostAddress (hostname (url_parse (url req)))
                  (remoteIpAddress req) = Some ip).
  { unfold localhost_rewrite. rewrite Hlocal, Hremote, Hnot. simpl. now rewrite Ht. }
  split; [exact Hrw|].
  unfold PassThrough.handle. rewrite Hrw, Hproto. simpl. rewrite Ht. reflexivity.
Qed.

End Handler.


(** C6, counterexample. [updateHostHeader] is a string, the empty one, and
    the Host header of the request is left as it is instead of being set to
    that string. *)
Lemma empty_updateHostHeader_leaves_host :
  handle Sample.url_parse Sample.isLocalhostAddress Sample.isHttp2
    (Some {| targetHost := "example.com:8080"; updateHostHeader := Some (UpdateTo "") |})
    Sample.chat_request Sample.plain_socket
  = ConnectUpstream "ws://example.com:8080/chat?x=1" (rawHeaders Sample.chat_request)
  ∧ findRawHeader (rawHeaders Sample.chat_request) "host"
    = Some (0, ("Host", Some "client.local"))
  ∧ Some "client.local" ≠ Some "".
Proof. repeat split; (reflexivity || discriminate). Qed.

Lemma forwarding_sets_host_header_witness :
  ∃ raw',
    handle Sample.url_parse Sample.isLocalhostAddress Sample.isHttp2
      (Some {| targetHost := "example.com:8080"; updateHostHeader := None |})
      Sample.chat_request Sample.plain_socket
    = ConnectUpstream "ws://example.com:8080/chat?x=1" raw'
    ∧ findRawHeader raw' "host" = Some (0, ("Host", Some "example.com:8080")).
Proof.
  destruct (forwarding_sets_host_header Sample.url_parse Sample.isLocalhostAddress
              Sample.isHttp2
              {| targetHost := "example.com:8080"; updateHostHeader := None |}
              Sample.chat_request Sample.plain_socket)
    as (wsUrl & raw' & i & key & v & H1 & H2 & H3 & _ & _ & H4 & _).
  change (hostHeaderName Sample.isHttp2 Sample.chat_request) with "host" in *.
  exists raw'. split.
  - rewrite H1. f_equal. vm_compute in H1. now injection H1 as <- _.
  - rewrite H2. simpl in H3. destruct H3 as (-> & -> & _).
    now rewrite (H4 (or_introl eq_refl)).
Defined.

(** C7, counterexample. The request is for [localhost] and comes from
    [10.0.0.5], but forwarding is configured: the upstream URL has the
    forwarding target as its host and the remote address nowhere. *)
Lemma forwarding_overrides_remote_address :
  Sample.isLocalhostAddress
    (hostname (Sample.url_parse (url Sample.container_request))) = true
  ∧ remoteIpAddress Sample.container_request = Some "10.0.0.5"
  ∧ Sample.isLocalhostAddress (Some "10.0.0.5") = false
  ∧ handle Sample.url_parse Sample.isLocalhostAddress Sample.isHttp2
      (Some {| targetHost := "example.com"; updateHostHeader := Some UpdateFalse |})
      Sample.container_request Sample.plain_socket
    = ConnectUpstream "ws://example.com/x" [("Host", Some "localhost")]
  ∧ includes "10.0.0.5" "ws://example.com/x" = false.
Proof. repeat split; reflexivity. Qed.

Lemma localhost_target_is_remote_address_witness :
  handle Sample.url_parse Sample.isLocalhostAddress Sample.isHttp2 None
    Sample.container_request Sample.plain_socket
  = ConnectUpstream "ws://10.0.0.5/x" [("Host", Some "localhost")].
Proof.
  apply (localhost_target_is_remote_address Sample.url_parse
           Sample.isLocalhostAddress Sample.isHttp2
           Sample.container_request Sample.plain_socket "10.0.0.5" "ws:");
    (reflexivity || discriminate).
Defined.

End PassThroughFacts.

(** ** Rule binding: invariants of the records and of their promises *)
Module RuleInvFacts.
Import Rule RuleInv.

Lemma log_length (es : list event) (w : world) :
  length (run es w).2 = invocations es.
Proof.
  revert w. induction es as [|e es IH]; intros w; [reflexivity|].
  rewrite RuleFacts.run_cons. cbn [snd]. rewrite length_app, IH.
  unfold invocations. destruct e; simpl; try reflexivity.
Qed.

Lemma recorded_length (l : list (bool * nat)) : length (recorded l) ≤ length l.
Proof. induction l as [|[[|] cp] l IH]; simpl; lia. Qed.

Lemma recorded_all (l : list (bool * nat)) :
  Forall (λ d, d.1 = true) l → recorded l = l.*2.
Proof.
  induction 1 as [|[b cp] l Hb _ IH]; [reflexivity|].
  simpl in Hb. subst b. simpl. now rewrite IH.
Qed.

(** X1. The records of a rule never outnumber its request counter: after
    any sequence of events on a new rule, [requests.length <= requestCount],
    and the two are equal when every dispatch asked for recording. *)
Theorem records_bounded_by_requestCount (checker : option (nat → bool))
    (es : list event) :
  let w := (run es (new_world checker)).1 in
  length (requests (rule w)) ≤ requestCount (rule w)
  ∧ (Forall (λ d, d.1 = true) (run es (new_world checker)).2 →
     length (requests (rule w)) = requestCount (rule w)).
Proof.
  destruct (RuleFacts.run_rule es (new_world checker)) as (Hc & Hr & _).
  cbv zeta. rewrite Hc, Hr. simpl. split.
  - rewrite <- (log_length es (new_world checker)). apply recorded_length.
  - intros Hall. rewrite (recorded_all _ Hall), length_fmap. apply log_length.
Qed.

Lemma async_ok_mono (st st' : list cell) cp s pos :
  (∀ i x, st !! i = Some (Leaf x) → st' !! i = Some (Leaf x)) →
  async_ok st cp s pos → async_ok st' cp s pos.
Proof.
  intros Hm (hp & -> & (s0 & Hs0) & Hpos). exists hp. split; [reflexivity|].
  split; [exists s0; now apply Hm|].
  destruct pos; intuition auto.
Qed.

Lemma handle_store_ok (h : handler_call) (record : bool) (w : world) :
  store_ok w → store_ok (handle h record w).1.
Proof.
  intros Hok cp s pos. simpl. intros Hcp.
  destruct (decide (cp < length (store w))) as [Hlt|Hge].
  - rewrite lookup_app_l in Hcp by exact Hlt.
    apply async_ok_mono with (st := store w); [|now apply Hok].
    intros i x Hi. rewrite lookup_app_l; [exact Hi|]. now apply lookup_lt_Some in Hi.
  - rewrite lookup_app_r in Hcp by lia.
    destruct h as [h0|];
      (destruct (cp - length (store w)) as [|[|k]] eqn:E; simpl in Hcp;
       try discriminate);
      injection Hcp as <- <-; exists (length (store w));
      (split; [lia|]).
    + split; [|now split].
      exists h0. rewrite lookup_app_r by lia. now rewrite Nat.sub_diag.
    + split; [|discriminate].
      exists (Settled Rejected). rewrite lookup_app_r by lia. now rewrite Nat.sub_diag.
Qed.

Lemma settle_store_ok (p : nat) (s : settlement) (w : world) :
  store_ok w → store_ok (settle p s w).
Proof.
  intros Hok. unfold settle.
  destruct (store w !! p) as [[[|]|]|] eqn:Hp; try exact Hok.
  intros cp s1 pos. simpl. intros Hcp.
  assert (Hne : cp ≠ p).
  { intros ->. rewrite list_lookup_insert_eq in Hcp; [discriminate|].
    now apply lookup_lt_Some in Hp. }
  rewrite list_lookup_insert_ne in Hcp by congruence.
  destruct (Hok _ _ _ Hcp) as (hp & -> & (s0 & Hs0) & Hpos).
  exists hp. split; [reflexivity|].
  destruct (decide (hp = p)) as [->|Hhp].
  - rewrite Hp in Hs0. injection Hs0 as <-.
    split; [exists (Settled s); apply list_lookup_insert_eq;
            now apply lookup_lt_Some in Hp|].
    destruct pos as [hp'|wp|]; [exact Hpos| |].
    + destruct Hpos as [_ Hf]. congruence.
    + intros Hs1. specialize (Hpos Hs1). congruence.
  - rewrite !list_lookup_insert_ne by congruence.
    split; [now exists s0 | exact Hpos].
Qed.

Lemma resume_store_ok (cp : nat) (w0 : pstate) (w : world) :
  store_ok w → store_ok (resume cp w0 w).
Proof.
  intros Hok. unfold resume.
  destruct (store w !! cp) as [[|[|] [hp|wp|]]|] eqn:Hcp; try exact Hok.
  - (* suspended at the await on the handler's promise *)
    destruct (Hok _ _ _ Hcp) as (hp0 & -> & (s0 & Hs0) & -> & _).
    rewrite Hs0. simpl. destruct s0 as [|[|]]; [exact Hok| |].
    + intros c s1 pos. simpl. intros Hc.
      assert (Hlen : S hp0 < length (store w)) by now apply lookup_lt_Some in Hcp.
      destruct (decide (c = S hp0)) as [->|Hne].
      * rewrite list_lookup_insert_eq in Hc by (rewrite length_app; simpl; lia).
        injection Hc as <- <-. exists hp0. split; [reflexivity|].
        rewrite list_lookup_insert_ne by lia.
        rewrite lookup_app_l by lia. split; [now exists (Settled Fulfilled)|].
        split; [reflexivity | exact Hs0].
      * rewrite list_lookup_insert_ne in Hc by congruence.
        assert (Hc' : store w !! c = Some (Async s1 pos)).
        { destruct (decide (c < length (store w))).
          - now rewrite lookup_app_l in Hc.
          - rewrite lookup_app_r in Hc by lia.
            destruct (c - length (store w)) as [|k]; simpl in Hc; discriminate. }
        apply async_ok_mono with (st := store w); [|now apply Hok].
        intros i x Hi.
        assert (i ≠ S hp0) by (intros ->; congruence).
        rewrite list_lookup_insert_ne by congruence.
        rewrite lookup_app_l; [exact Hi|]. now apply lookup_lt_Some in Hi.
    + intros c s1 pos. simpl. intros Hc.
      assert (Hlen : S hp0 < length (store w)) by now apply lookup_lt_Some in Hcp.
      destruct (decide (c = S hp0)) as [->|Hne].
      * rewrite list_lookup_insert_eq in Hc by lia.
        injection Hc as <- <-. exists hp0. split; [reflexivity|].
        rewrite list_lookup_insert_ne by lia.
        split; [now exists (Settled Rejected) | discriminate].
      * rewrite list_lookup_insert_ne in Hc by congruence.
        apply async_ok_mono with (st := store w); [|now apply Hok].
        intros i x Hi.
        assert (i ≠ S hp0) by (intros ->; congruence).
        now rewrite list_lookup_insert_ne by congruence.
  - (* returned the promise of waitForCompletedRequest *)
    destruct (Hok _ _ _ Hcp) as (hp0 & -> & (s0 & Hs0) & _ & Hf).
    destruct (cell_state <$> store w !! wp) as [[|s]|]; try exact Hok.
    intros c s1 pos. simpl. intros Hc.
    assert (Hlen : S hp0 < length (store w)) by now apply lookup_lt_Some in Hcp.
    destruct (decide (c = S hp0)) as [->|Hne].
    + rewrite list_lookup_insert_eq in Hc by lia.
      injection Hc as <- <-. exists hp0. split; [reflexivity|].
      rewrite list_lookup_insert_ne by lia.
      split; [now exists (Settled Fulfilled) | now intros _].
    + rewrite list_lookup_insert_ne in Hc by congruence.
      apply async_ok_mono with (st := store w); [|now apply Hok].
      intros i x Hi.
      assert (i ≠ S hp0) by (intros ->; congruence).
      now rewrite list_lookup_insert_ne by congruence.
Qed.

Lemma handle_records_ok (h : handler_call) (record : bool) (w : world) :
  records_ok w → records_ok (handle h record w).1.
Proof.
  intros [Ha Hb].
  set (new := match h with
              | Returns h0 => [Leaf h0; Async Pending (AtAwaitHandler (length (store w)))]
              | Throws => [Leaf (Settled Rejected); Async (Settled Rejected) Finished]
              end).
  assert (Hold : ∀ cp, cp ∈ requests (rule w) →
            ∃ s pos, (store w ++ new) !! cp = Some (Async s pos)).
  { intros cp Hin. destruct (Ha cp Hin) as (s & pos & Hl). exists s, pos.
    rewrite lookup_app_l; [exact Hl|]. now apply lookup_lt_Some in Hl. }
  unfold records_ok, handle. fold new. destruct record; cbn [fst rule requests store];
    [|split; [exact Hold | exact Hb]].
  split.
  - intros cp [Hin|Hin%list_elem_of_singleton]%elem_of_app; [now apply Hold|].
    subst cp. rewrite lookup_app_r by lia.
    replace (S (length (store w)) - length (store w)) with 1 by lia.
    subst new. destruct h; simpl; eauto.
  - intros i j a b Hij Hi Hj.
    assert (Hil : i < length (requests (rule w))).
    { apply lookup_lt_Some in Hj. rewrite length_app in Hj. simpl in Hj. lia. }
    rewrite lookup_app_l in Hi by exact Hil.
    destruct (decide (j < length (requests (rule w)))) as [Hjl|Hjl].
    + rewrite lookup_app_l in Hj by exact Hjl. now apply (Hb i j).
    + rewrite lookup_app_r in Hj by lia.
      destruct (j - length (requests (rule w))) as [|k]; simpl in Hj; [|discriminate].
      injection Hj as <-.
      destruct (Ha a) as (s & pos & Hl); [now apply list_elem_of_lookup_2 in Hi|].
      apply lookup_lt_Some in Hl. lia.
Qed.

Lemma settle_records_ok (p : nat) (s : settlement) (w : world) :
  records_ok w → records_ok (settle p s w).
Proof.
  intros [Ha Hb]. split; [|now rewrite RuleFacts.rule_settle].
  rewrite RuleFacts.rule_settle. intros cp Hin.
  destruct (Ha cp Hin) as (s1 & pos & Hl). exists s1, pos.
  now apply RuleFacts.settle_keeps_async.
Qed.

Lemma resume_keeps_async (cp c : nat) (w0 : pstate) (w : world) s pos :
  store w !! c = Some (Async s pos) →
  ∃ s' pos', store (resume cp w0 w) !! c = Some (Async s' pos').
Proof.
  intros Hc. assert (Hlen : c < length (store w)) by now apply lookup_lt_Some in Hc.
  assert (Hins : ∀ (l : list cell) x, c < length l → l !! c = Some (Async s pos) →
            ∃ s' pos', <[cp := Async x.1 x.2]> l !! c = Some (Async s' pos')).
  { intros l x Hl Hlc. destruct (decide (cp = c)) as [->|Hne].
    - rewrite list_lookup_insert_eq by exact Hl. eauto.
    - rewrite list_lookup_insert_ne by exact Hne. eauto. }
  unfold resume.
  destruct (store w !! cp) as [[|[|] [hp|wp|]]|]; eauto.
  - destruct (cell_state <$> store w !! hp) as [[|[|]]|]; eauto; simpl.
    + apply (Hins _ (Pending, AtReturn (length (store w)))).
      * rewrite length_app. lia.
      * now rewrite lookup_app_l.
    + now apply (Hins _ (Settled Rejected, Finished)).
  - destruct (cell_state <$> store w !! wp) as [[|s1]|]; eauto; simpl.
    now apply (Hins _ (Settled s1, Finished)).
Qed.

Lemma resume_records_ok (cp : nat) (w0 : pstate) (w : world) :
  records_ok w → records_ok (resume cp w0 w).
Proof.
  intros [Ha Hb]. split; [|now rewrite RuleFacts.rule_resume].
  rewrite RuleFacts.rule_resume. intros c Hin.
  destruct (Ha c Hin) as (s1 & pos & Hl). now apply resume_keeps_async with s1 pos.
Qed.

Lemma run_ok (es : list event) (w : world) :
  store_ok w → records_ok w →
  store_ok (run es w).1 ∧ records_ok (run es w).1.
Proof.
  revert w. induction es as [|e es IH]; intros w Hs Hr; [now split|].
  rewrite RuleFacts.run_cons. cbn [fst]. apply IH.
  - destruct e; simpl;
      [apply handle_store_ok | apply settle_store_ok | apply resume_store_ok]; exact Hs.
  - destruct e; simpl;
      [apply handle_records_ok | apply settle_records_ok | apply resume_records_ok];
      exact Hr.
Qed.

Lemma new_world_ok (checker : option (nat → bool)) :
  store_ok (new_world checker) ∧ records_ok (new_world checker).
Proof.
  split; [intros cp s pos; simpl; now rewrite lookup_nil|].
  split; simpl.
  - intros cp Hin. now apply elem_of_nil in Hin.
  - intros i j a b _ Hi. now rewrite lookup_nil in Hi.
Qed.

(** X2. Every entry of the records of a rule is a promise made by an
    invocation of [handle] (never the handler's own promise), no promise is
    recorded twice, and the entries are in the order in which the promises
    were made. *)
Theorem records_are_distinct_handle_promises (checker : option (nat → bool))
    (es : list event) :
  let w := (run es (new_world checker)).1 in
  (∀ cp, cp ∈ requests (rule w) → ∃ s pos, store w !! cp = Some (Async s pos))
  ∧ NoDup (requests (rule w))
  ∧ (∀ i j a b, i < j → requests (rule w) !! i = Some a →
                requests (rule w) !! j = Some b → a < b).
Proof.
  destruct (new_world_ok checker) as [Hs Hr].
  destruct (run_ok es _ Hs Hr) as [_ [Ha Hb]].
  cbv zeta. split; [exact Ha|]. split; [|exact Hb].
  apply NoDup_alt. intros i j x Hi Hj.
  destruct (Nat.lt_trichotomy i j) as [Hlt|[Heq|Hgt]]; [|exact Heq|].
  - pose proof (Hb i j x x Hlt Hi Hj). lia.
  - pose proof (Hb j i x x Hgt Hj Hi). lia.
Qed.

(** X3. A recorded promise is fulfilled only after the handler's promise of
    the same invocation was fulfilled: for every record [cp] there is the
    handler's promise [hp] made just before it, and if [cp] is fulfilled so
    is [hp]; after a rejected handler the record is never fulfilled. *)
Theorem record_fulfilled_only_after_handler (checker : option (nat → bool))
    (es : list event) (cp : nat) :
  let w := (run es (new_world checker)).1 in
  cp ∈ requests (rule w) →
  ∃ hp s0, cp = S hp
    ∧ store w !! hp = Some (Leaf s0)
    ∧ (cell_state <$> store w !! cp = Some (Settled Fulfilled) →
       s0 = Settled Fulfilled)
    ∧ (s0 = Settled Rejected →
       cell_state <$> store w !! cp ≠ Some (Settled Fulfilled)).
Proof.
  destruct (new_world_ok checker) as [Hs Hr].
  destruct (run_ok es _ Hs Hr) as [Hok [Ha _]].
  cbv zeta. intros Hin.
  destruct (Ha cp Hin) as (s & pos & Hcp).
  destruct (Hok _ _ _ Hcp) as (hp & -> & (s0 & Hs0) & Hpos).
  exists hp, s0. split; [reflexivity|]. split; [exact Hs0|].
  assert (Hful : s = Settled Fulfilled → s0 = Settled Fulfilled).
  { intros ->. destruct pos as [hp'|wp|].
    - destruct Hpos as [_ ?]. discriminate.
    - destruct Hpos as [? _]. discriminate.
    - specialize (Hpos eq_refl). congruence. }
  rewrite Hcp. simpl. split.
  - intros [= ->]. now apply Hful.
  - intros -> [= ->]. specialize (Hful eq_refl). discriminate.
Qed.

Lemma records_bounded_by_requestCount_witness :
  length (requests (rule (run [Dispatch (Returns Pending) true; Dispatch (Returns (Settled Fulfilled)) true]
                              (new_world None)).1)) = 2
  ∧ length (requests (rule (run sample_events (new_world None)).1)) ≤ 2.
Proof.
  split.
  - apply (proj2 (records_bounded_by_requestCount None
                    [Dispatch (Returns Pending) true; Dispatch (Returns (Settled Fulfilled)) true])).
    repeat constructor.
  - apply (proj1 (records_bounded_by_requestCount None sample_events)).
Defined.

Lemma records_are_distinct_handle_promises_witness :
  (∃ s pos, store (run sample_events (new_world None)).1 !! 3 = Some (Async s pos))
  ∧ NoDup (requests (rule (run sample_events (new_world None)).1)).
Proof.
  destruct (records_are_distinct_handle_promises None sample_events) as (Ha & Hn & _).
  split; [|exact Hn]. apply Ha. repeat constructor.
Defined.

Lemma record_fulfilled_only_after_handler_witness :
  ∃ hp s0, 3 = S hp
    ∧ store (run sample_events (new_world None)).1 !! hp = Some (Leaf s0)
    ∧ (cell_state <$> store (run sample_events (new_world None)).1 !! 3
         = Some (Settled Fulfilled) → s0 = Settled Fulfilled)
    ∧ (s0 = Settled Rejected →
       cell_state <$> store (run sample_events (new_world None)).1 !! 3
         ≠ Some (Settled Fulfilled)).
Proof.
  apply (record_fulfilled_only_after_handler None sample_events 3).
  repeat constructor.
Defined.

End RuleInvFacts.

(** ** The frame pipe: relaying data frames *)
Module RelayFacts.
Import Js JsFacts Pipe Relay.

Lemma relayed_app (l1 l2 : list op) : relayed (l1 ++ l2) = relayed l1 ++ relayed l2.
Proof.
  induction l1 as [|[d b|d|d| |o|e] l1 IH]; simpl; try exact IH;
    [reflexivity | now rewrite IH..].
Qed.

Lemma relayed_Control (l : list effect) : relayed (map Control l) = [].
Proof. induction l as [|e l IH]; [reflexivity | exact IH]. Qed.

Lemma relayed_on_event (e : env) (ev : ws_event) :
  relayed (on_event e ev) = received_while_open [(e, ev)].
Proof.
  destruct ev as [m b|n r|d|d|m]; simpl; try apply relayed_Control;
    destruct (isOpen (out_state e)), (send_fails e); reflexivity.
Qed.

(** X4. Over any sequence of events on the in socket of a pipe, the frames
    put on the out socket are exactly the messages, pings and pongs that
    arrived while the out socket was OPEN, in the order of arrival: a
    message with its data and binary flag, a ping as a ping and a pong as a
    pong with its payload. Frames arriving in any other state are dropped,
    and close and error events never make the pipe send such a frame. *)
Theorem pipe_relays_frames_in_order (evs : list (env * ws_event)) :
  relayed (flat_map (λ x, on_event x.1 x.2) evs) = received_while_open evs.
Proof.
  induction evs as [|[e ev] evs IH]; [reflexivity|].
  simpl flat_map. rewrite relayed_app, IH, relayed_on_event.
  simpl. now destruct (is_frame ev && isOpen (out_state e)).
Qed.

Lemma on_close_targets (cr : Z → string → bool) (n : Z) (r : string) (e : effect) :
  e ∈ on_close cr n r → target e ≠ Some InSocket.
Proof.
  unfold on_close. intros Hin. apply list_elem_of_In in Hin.
  destruct (isValidStatusCode n); [destruct (cr n r)|]; simpl in Hin;
    intuition (subst; discriminate).
Qed.

(** The only thing a pipe does to its own in socket is the bare [close()]
    after a failed send, ping or pong. *)
Lemma on_event_in_socket (e : env) (ev : ws_event) (a b : nat) (o : op) :
  a ≠ b → o ∈ on_event e ev → op_socket (a, b) o = Some a → o = CloseIn.
Proof.
  intros Hab Hin Hs.
  assert (Hdata : ∀ o0 name, o ∈ o0 :: onPipeFailed name (send_fails e) →
                    (∀ x, op_socket (a, b) o0 = Some x → x = b) → o = CloseIn).
  { intros o0 name Ho Hb. apply list_elem_of_In in Ho. unfold onPipeFailed in Ho.
    destruct (send_fails e); simpl in Ho.
    - destruct Ho as [<-|[<-|[<-|[]]]]; [|reflexivity|discriminate].
      specialize (Hb _ Hs). congruence.
    - destruct Ho as [<-|[]]. specialize (Hb _ Hs). congruence. }
  assert (Hctl : ∀ l, (∀ x, x ∈ l → target x ≠ Some InSocket) →
                   o ∈ map Control l → o = CloseIn).
  { intros l Hl Ho. apply list_elem_of_fmap in Ho as (x & -> & Hx).
    specialize (Hl x Hx). simpl in Hs.
    destruct (target x) as [[|]|]; simpl in Hs; congruence. }
  destruct ev as [m bin|n r|d|d|m]; simpl in Hin.
  - destruct (isOpen (out_state e)); [|now apply elem_of_nil in Hin].
    apply (Hdata _ _ Hin). now intros x [= <-].
  - apply (Hctl _ (on_close_targets _ _ _) Hin).
  - destruct (isOpen (out_state e)); [|now apply elem_of_nil in Hin].
    apply (Hdata _ _ Hin). now intros x [= <-].
  - destruct (isOpen (out_state e)); [|now apply elem_of_nil in Hin].
    apply (Hdata _ _ Hin). now intros x [= <-].
  - apply (Hctl _ (PipeFacts.on_error_targets _) Hin).
Qed.

(** X5. Echo: the one pipe of an echo connection has the socket on both
    ends, so while the socket is OPEN and its sends go through, the frames
    sent back are the messages received, one for one, in order and with the
    same binary flag, and nothing else is done. *)
Theorem echo_returns_every_frame (ws : nat) (evs : list (sys_env * (string * bool))) :
  Forall (λ x, ready x.1 ws = OPEN ∧ sys_send_fails x.1 = false) evs →
  flat_map (λ x, emit (echo_connection ws) x.1 ws (EvMessage x.2.1 x.2.2)) evs
  = map (λ x, ((ws, ws), Send x.2.1 x.2.2)) evs.
Proof.
  induction 1 as [|[e [m b]] evs [Hr Hf] _ IH]; [reflexivity|].
  simpl in *. rewrite IH, Nat.eqb_refl. simpl. now rewrite Hr, Hf.
Qed.

Lemma echo_returns_every_frame_witness :
  let e := {| ready := λ _, OPEN; sys_send_fails := false;
              sys_close_raises := λ _ _, false |} in
  flat_map (λ x : sys_env * (string * bool),
              emit (echo_connection 7) x.1 7 (EvMessage x.2.1 x.2.2))
           [(e, ("hello", false)); (e, ("abc", true))]
  = [((7, 7), Send "hello" false); ((7, 7), Send "abc" true)].
Proof.
  intros e.
  apply (echo_returns_every_frame 7 [(e, ("hello", false)); (e, ("abc", true))]).
  repeat constructor.
Defined.

(** X6. Pass-through never reflects: with the two pipes of a pass-through
    connection between distinct sockets, an event on one socket runs the
    listeners of exactly the pipe that starts there, and nothing is sent to
    the socket the event came from: the only operation on that socket is the
    bare [close()] after a failed send, ping or pong. *)
Theorem passthrough_never_reflects (ws upstream : nat) (e : sys_env)
    (ev : ws_event) (p : nat * nat) (o : op) :
  ws ≠ upstream →
  ((p, o) ∈ emit (passthrough_connection ws upstream) e ws ev →
     p = (ws, upstream) ∧ (op_socket p o = Some ws → o = CloseIn))
  ∧ ((p, o) ∈ emit (passthrough_connection ws upstream) e upstream ev →
     p = (upstream, ws) ∧ (op_socket p o = Some upstream → o = CloseIn)).
Proof.
  intros Hne. unfold emit, passthrough_connection. simpl.
  rewrite !Nat.eqb_refl.
  assert (E1 : Nat.eqb upstream ws = false) by (apply Nat.eqb_neq; congruence).
  assert (E2 : Nat.eqb ws upstream = false) by now apply Nat.eqb_neq.
  rewrite E1, E2, !app_nil_r. simpl.
  split; intros Hin; apply list_elem_of_fmap in Hin as (o' & [= -> ->] & Ho);
    (split; [reflexivity|]); intros Hs.
  - now apply (on_event_in_socket _ _ _ _ _ Hne Ho).
  - assert (Hne' : upstream ≠ ws) by congruence.
    now apply (on_event_in_socket _ _ _ _ _ Hne' Ho).
Qed.

Lemma passthrough_never_reflects_witness :
  let e := {| ready := λ _, OPEN; sys_send_fails := true;
              sys_close_raises := λ _ _, false |} in
  ((1, 2), Send "hello" false) ∈ emit (passthrough_connection 1 2) e 1 (EvMessage "hello" false)
  ∧ ((1, 2) = (1, 2) ∧
     (op_socket (1, 2) (Send "hello" false) = Some 1 → Send "hello" false = CloseIn)).
Proof.
  intros e.
  assert (Hin : ((1, 2), Send "hello" false)
                ∈ emit (passthrough_connection 1 2) e 1 (EvMessage "hello" false))
    by repeat constructor.
  split; [exact Hin|].
  apply (proj1 (passthrough_never_reflects 1 2 e (EvMessage "hello" false)
                  (1, 2) (Send "hello" false) ltac:(discriminate)) Hin).
Defined.

Lemma initializeWsServer_iter (l : listener) (n : nat) :
  Nat.iter (S n) (initializeWsServer l) None = Some [l].
Proof. induction n as [|n IH]; [reflexivity|]. simpl in *. now rewrite IH. Qed.

(** X7. A handler creates its WebSocket server on the first request and
    keeps it: however many requests ran [initializeWsServer] before, the
    server has one ['connection'] listener, so a new connection gets the
    pipes of the handler once, and a message arriving on the downstream
    socket of a pass-through connection is sent upstream exactly once. *)
Theorem wsServer_has_one_listener (l : listener) (n : nat) (ws upstream : nat)
    (e : sys_env) (m : string) (b : bool) :
  on_connection (Nat.iter (S n) (initializeWsServer l) None) ws upstream = l ws upstream
  ∧ (ws ≠ upstream → ready e upstream = OPEN → sys_send_fails e = false →
     emit (on_connection (Nat.iter (S n) (initializeWsServer passthrough_connection) None)
                         ws upstream)
          e ws (EvMessage m b)
     = [((ws, upstream), Send m b)]).
Proof.
  rewrite !initializeWsServer_iter. simpl. rewrite app_nil_r.
  split; [reflexivity|]. intros Hne Hr Hf.
  unfold emit. simpl. rewrite Nat.eqb_refl, Hr, Hf.
  assert (E1 : Nat.eqb upstream ws = false) by (apply Nat.eqb_neq; congruence).
  now rewrite E1.
Qed.

Lemma wsServer_has_one_listener_witness :
  emit (on_connection (Nat.iter 3 (initializeWsServer passthrough_connection) None) 1 2)
       {| ready := λ _, OPEN; sys_send_fails := false; sys_close_raises := λ _ _, false |}
       1 (EvMessage "hello" false)
  = [((1, 2), Send "hello" false)].
Proof.
  apply (proj2 (wsServer_has_one_listener passthrough_connection 2 1 2
                  {| ready := λ _, OPEN; sys_send_fails := false;
                     sys_close_raises := λ _ _, false |} "hello" false));
    (discriminate || reflexivity).
Defined.

End RelayFacts.

(** ** The frame pipe: when the error listener itself fails *)
Module PipeErrorFacts.
Import Js JsFacts Pipe.

Lemma uint_of_digit (c : ascii) (d : Decimal.uint) :
  is_digit c = true → ∃ d', DecimalString.uint_of_char c (Some d) = Some d'.
Proof.
  destruct c as [[] [] [] [] [] [] [] []]; intros H; try discriminate H;
    eexists; reflexivity.
Qed.

Lemma uint_of_take_digits (s : string) :
  ∃ d, NilEmpty.uint_of_string (take_digits s) = Some d.
Proof.
  induction s as [|c s [d IH]]; simpl; [now eexists|].
  destruct (is_digit c) eqn:E; [|now eexists].
  simpl. rewrite IH. now apply uint_of_digit.
Qed.

Lemma take_digits_idem (s : string) : take_digits (take_digits s) = take_digits s.
Proof.
  induction s as [|c s IH]; [reflexivity|]. simpl.
  destruct (is_digit c) eqn:E; [|reflexivity]. simpl. now rewrite E, IH.
Qed.

(** What the regular expression captures is a non-empty run of digits. *)
Lemma exec_captures_digits (m ds : string) :
  INVALID_STATUS_REGEX_exec m = Some ds → ds ≠ "" ∧ take_digits ds = ds.
Proof.
  induction m as [|c m IH].
  - intros H. vm_compute in H. discriminate.
  - cbn [INVALID_STATUS_REGEX_exec].
    destruct (invalid_status_here (String c m)) as [ds'|] eqn:E; [|exact IH].
    intros [= ->]. unfold invalid_status_here in E.
    destruct (strip_prefix _ _) as [rest|]; [|discriminate].
    destruct (take_digits rest) as [|a t] eqn:T; [discriminate|].
    injection E as <-. split; [discriminate|].
    rewrite <- T. apply take_digits_idem.
Qed.

Lemma parseInt_of_capture (m ds : string) :
  INVALID_STATUS_REGEX_exec m = Some ds → ∃ n, parseInt ds = Some n.
Proof.
  intros H. destruct (exec_captures_digits _ _ H) as [Hne Hd].
  unfold parseInt. rewrite Hd.
  destruct (uint_of_take_digits ds) as [d Hu]. rewrite Hd in Hu.
  destruct ds as [|a t]; [contradiction|]. rewrite Hu. now eexists.
Qed.

(** X8. The error listener raises exactly when the status code in the
    diagnostic does not fit 16 bits; it has then only logged: no frame is
    sent and the raw socket of the out socket is not destroyed. For every
    other message it returns. *)
Theorem on_error_raises_iff_status_too_large (m : string) :
  ((∃ l, on_error m = Raised l) ↔
   (∃ ds n, INVALID_STATUS_REGEX_exec m = Some ds ∧ parseInt ds = Some n
            ∧ (65535 < n)%N))
  ∧ (∀ l, on_error m = Raised l → l = [ConsoleLog])
  ∧ (∀ n, (65535 < n)%N → m = vendor_invalid_status_message n →
       on_error m = Raised [ConsoleLog]).
Proof.
  assert (Hbig : ∀ msg ds n, INVALID_STATUS_REGEX_exec msg = Some ds →
            parseInt ds = Some n → (65535 < n)%N → on_error msg = Raised [ConsoleLog]).
  { intros msg ds n He Hp Hn. unfold on_error, writeUInt16BE. rewrite He, Hp.
    destruct (N.leb_spec n 65535); [lia | reflexivity]. }
  split; [split|split].
  - intros [l Hl]. unfold on_error in Hl.
    destruct (INVALID_STATUS_REGEX_exec m) as [ds|] eqn:He; [|discriminate].
    destruct (parseInt_of_capture _ _ He) as [n Hp]. rewrite Hp in Hl.
    exists ds, n. split; [reflexivity|]. split; [exact Hp|].
    unfold writeUInt16BE in Hl. destruct (N.leb_spec n 65535); [discriminate | lia].
  - intros (ds & n & He & Hp & Hn). exists [ConsoleLog]. now apply (Hbig m ds n).
  - intros l Hl. unfold on_error in Hl.
    destruct (INVALID_STATUS_REGEX_exec m) as [ds|]; [|discriminate].
    destruct (parseInt ds) as [n|]; [|congruence].
    destruct (writeUInt16BE n); [discriminate | congruence].
  - intros n Hn ->. apply (Hbig _ (num_to_string n) n);
      [apply PipeFacts.exec_vendor_message | apply parseInt_num_to_string | exact Hn].
Qed.

Lemma on_error_raises_iff_status_too_large_witness :
  on_error "Invalid WebSocket frame: invalid status code 65536" = Raised [ConsoleLog].
Proof.
  apply (proj2 (proj2 (on_error_raises_iff_status_too_large
                         "Invalid WebSocket frame: invalid status code 65536"))
           65536%N); [lia | reflexivity].
Defined.

End PipeErrorFacts.

(** ** Raw HTTP responses: how rejecting and mirroring compare *)
Module HttpMoreFacts.
Import Js JsFacts Http.

Lemma written_reject (h : RejectWebSocketHandler) :
  written (reject_handle h)
  = rawResponse (statusCode h) (statusMessage h) (objectHeadersToRaw (headers h))
    +:+ body_bytes (body h) +:+ CRLF.
Proof.
  unfold reject_handle. rewrite !HttpFacts.written_app.
  assert (Hbody : written (if body_truthy (body h)
                           then [SockWrite (body_bytes (body h))] else [])
                  = body_bytes (body h)).
  { destruct (body h) as [[|a s]|bytes]; simpl; try reflexivity;
      apply HttpFacts.append_nil_r. }
  rewrite Hbody. simpl written. now rewrite !HttpFacts.append_nil_r.
Qed.

(** X9. A mirrored rejection and a configured rejection with the same
    status code (not 0), status message (not empty), headers and body put
    the same bytes on the socket, except that only the reject handler adds
    a CRLF after the body. *)
Theorem reject_is_mirror_plus_CRLF (pair : list string → RawHeaders)
    (h : RejectWebSocketHandler) (res : IncomingMessage) :
  statusCode h ≠ 0%N →
  statusMessage h ≠ "" →
  res_statusCode res = Some (statusCode h) →
  res_statusMessage res = Some (statusMessage h) →
  pair (res_rawHeaders res) = objectHeadersToRaw (headers h) →
  written (reject_handle h)
  = written (mirrorRejection pair true res (Resolves (body_bytes (body h))) true).1
    +:+ CRLF.
Proof.
  intros Hc Hm Hrc Hrm Hp. rewrite written_reject.
  unfold mirrorRejection. rewrite Hrc, Hrm, Hp.
  assert (E1 : status_or_500 (Some (statusCode h)) = statusCode h).
  { unfold status_or_500. destruct (N.eqb_spec (statusCode h) 0); congruence. }
  assert (E2 : message_or_unknown (Some (statusMessage h)) = statusMessage h).
  { unfold message_or_unknown. destruct (statusMessage h); [contradiction|reflexivity]. }
  rewrite E1, E2. simpl. rewrite HttpFacts.append_nil_r, HttpFacts.append_assoc.
  reflexivity.
Qed.

Lemma reject_is_mirror_plus_CRLF_witness :
  written (reject_handle teapot)
  = written (mirrorRejection (λ _, [("X-Foo", "bar")]) true
               {| res_statusCode := Some 418%N;
                  res_statusMessage := Some "I'm a teapot";
                  res_rawHeaders := ["X-Foo"; "bar"] |}
               (Resolves "nope") true).1
    +:+ CRLF.
Proof.
  apply (reject_is_mirror_plus_CRLF (λ _, [("X-Foo", "bar")]) teapot
           {| res_statusCode := Some 418%N;
              res_statusMessage := Some "I'm a teapot";
              res_rawHeaders := ["X-Foo"; "bar"] |});
    (discriminate || reflexivity).
Defined.

(** X10. Without headers the response head is the status line followed by
    three CRLF: the empty header block still gets its CRLF CRLF, so what a
    client reads after the blank line starts with a CRLF, before the body of
    the reject handler. *)
Theorem reject_without_headers (code : N) (message : string) (b : Body) :
  rawResponse code message []
  = "HTTP/1.1 " +:+ num_to_string code +:+ " " +:+ message +:+ CRLF +:+ CRLF +:+ CRLF
  ∧ written (reject_handle {| statusCode := code; statusMessage := message;
                              headers := []; body := b |})
    = ("HTTP/1.1 " +:+ num_to_string code +:+ " " +:+ message +:+ CRLF +:+ CRLF)
      +:+ CRLF +:+ body_bytes b +:+ CRLF.
Proof.
  assert (E : rawResponse code message []
              = "HTTP/1.1 " +:+ num_to_string code +:+ " " +:+ message
                +:+ CRLF +:+ CRLF +:+ CRLF).
  { unfold rawResponse. simpl. now rewrite !HttpFacts.append_assoc. }
  split; [exact E|]. rewrite written_reject. unfold objectHeadersToRaw.
  cbn [headers statusCode statusMessage body]. rewrite E.
  now rewrite !HttpFacts.append_assoc.
Qed.

End HttpMoreFacts.

(** ** Pass-through: more on the target and on the Host header *)
Module PassThroughMoreFacts.
Import Js JsFacts PassThrough PassThroughFacts.

Lemma host_value_idem (old h p : option string) (u : option UpdateHostHeader) :
  host_value (host_value old h p u) h p u = host_value old h p u.
Proof. destruct u as [[| |s]|]; simpl; try reflexivity. now destruct (truthy s). Qed.

Lemma update_host_header_idem (raw : RawHeaders) (name : string)
    (h p : option string) (u : option UpdateHostHeader) :
  toLowerCase name = name →
  update_host_header (update_host_header raw name h p u) name h p u
  = update_host_header raw name h p u.
Proof.
  intros Hl. destruct (findRawHeader raw name) as [[i [k old]]|] eqn:F.
  - destruct (update_host_header_found raw name h p u i k old F) as [E1 E2].
    destruct (update_host_header_found _ name h p u i k _ E2) as [E3 _].
    rewrite E3, E1, host_value_idem. apply list_insert_insert_eq.
  - destruct (update_host_header_absent raw name h p u Hl F) as [E1 E2].
    destruct (update_host_header_found _ name h p u 0 name _ E2) as [E3 _].
    rewrite E3, E1, host_value_idem. reflexivity.
Qed.



Lemma strip_prefix_None (p s : string) :
  startsWith p s = false → strip_prefix p s = None.
Proof.
  revert s. induction p as [|a p IH]; intros [|b s]; simpl; try discriminate;
    try reflexivity.
  destruct (Ascii.eqb a b); [apply IH | reflexivity].
Qed.

(** Replacing a text that does not occur changes nothing. *)
Lemma replace_absent (pat by_ s : string) :
  includes pat s = false → replace pat by_ s = s.
Proof.
  induction s as [|c s IH]; simpl; intros H; apply orb_false_iff in H as [H1 H2].
  - now rewrite (strip_prefix_None _ _ H1).
  - rewrite (strip_prefix_None _ _ H1). now rewrite (IH H2).
Qed.

Lemma replace_prefix (pat by_ rest : string) :
  replace pat by_ (pat +:+ rest) = by_ +:+ rest.
Proof.
  destruct (pat +:+ rest) eqn:E; simpl; rewrite <- E, strip_prefix_app; reflexivity.
Qed.

Section Handler.
Context (url_parse : string → UrlParts)
        (isHttp2 : OngoingRequest → bool).

(** X11. With forwarding configured the remote address plays no part:
    whatever [isLocalhostAddress] answers, whatever the remote address, the
    [headers] object and the socket are, [handle] calls [connectUpstream]
    with the same URL and raw headers. *)
Theorem forwarding_ignores_remote_address
    (isLocal1 isLocal2 : option string → bool) (f : ForwardingOptions)
    (req : OngoingRequest) (hs : string → option string) (ip : option string)
    (socket1 socket2 : Socket) :
  let req' := {| url := url req; rawHeaders := rawHeaders req;
                 headers := hs; remoteIpAddress := ip |} in
  isHttp2 req' = isHttp2 req →
  handle url_parse isLocal1 isHttp2 (Some f) req socket1
  = handle url_parse isLocal2 isHttp2 (Some f) req' socket2.
Proof.
  intros req' H2. unfold handle, hostHeaderName. rewrite H2. reflexivity.
Qed.

(** X12. With forwarding and [updateHostHeader] true or absent, the Host
    header and the upstream URL agree: the URL is the protocol, [//], the
    very value given to the Host header, and the path of the request. For a
    target without [/] the protocol is the one of the request URL. *)
Theorem forwarded_host_matches_url (isLocal : option string → bool)
    (f : ForwardingOptions) (req : OngoingRequest) (socket : Socket) :
  updateHostHeader f = None ∨ updateHostHeader f = Some UpdateTrue →
  ∃ v raw' i key,
    handle url_parse isLocal isHttp2 (Some f) req socket
    = ConnectUpstream
        (template (forward_target url_parse (protocol (url_parse (url req)))
                                  (targetHost f)).1.1
         +:+ "//" +:+ v +:+ template (path (url_parse (url req))))
        raw'
    ∧ findRawHeader raw' (hostHeaderName isHttp2 req) = Some (i, (key, Some v))
    ∧ (includes "/" (targetHost f) = false →
       (forward_target url_parse (protocol (url_parse (url req))) (targetHost f)).1.1
       = protocol (url_parse (url req))).
Proof.
  intros Hu. unfold handle.
  destruct (forward_target url_parse _ (targetHost f)) as [[pr h] p] eqn:T.
  cbn [fst snd].
  assert (Hv : ∀ old, host_value old h p (updateHostHeader f)
                      = Some (template h +:+ port_suffix p))
    by (intros old; destruct Hu as [-> | ->]; reflexivity).
  assert (Hfind : ∃ i key,
            findRawHeader (update_host_header (rawHeaders req) (hostHeaderName isHttp2 req) h p (updateHostHeader f))
                          (hostHeaderName isHttp2 req)
            = Some (i, (key, Some (template h +:+ port_suffix p)))).
  { destruct (findRawHeader (rawHeaders req) (hostHeaderName isHttp2 req)) as [[i [k old]]|] eqn:F.
    - destruct (update_host_header_found _ _ h p (updateHostHeader f) _ _ _ F) as [_ E].
      exists i, k. now rewrite E, Hv.
    - destruct (update_host_header_absent _ _ h p (updateHostHeader f)
                  (hostHeaderName_lower isHttp2 req) F) as [_ E].
      exists 0, (hostHeaderName isHttp2 req). now rewrite E, Hv. }
  destruct Hfind as (i & key & Hf).
  eexists (template h +:+ port_suffix p), _, i, key.
  split; [|split; [exact Hf|]].
  - now rewrite HttpFacts.append_assoc.
  - intros Hb. unfold forward_target in T. rewrite Hb in T. simpl in T. congruence.
Qed.

(** X13. Handling a request again after its raw headers were updated in
    place changes nothing more: the second call passes on the same URL and
    the same raw headers, and no second Host header is added. *)
Theorem rehandling_keeps_forwarded_headers (isLocal : option string → bool)
    (f : ForwardingOptions) (req : OngoingRequest) (socket : Socket)
    (wsUrl : string) (raw' : RawHeaders) :
  let req' := {| url := url req; rawHeaders := raw';
                 headers := headers req; remoteIpAddress := remoteIpAddress req |} in
  isHttp2 req' = isHttp2 req →
  handle url_parse isLocal isHttp2 (Some f) req socket = ConnectUpstream wsUrl raw' →
  handle url_parse isLocal isHttp2 (Some f) req' socket = ConnectUpstream wsUrl raw'.
Proof.
  intros req' H2. unfold handle, hostHeaderName. rewrite H2. cbn [url rawHeaders].
  destruct (forward_target url_parse _ (targetHost f)) as [[pr h] p].
  intros [= <- <-]. f_equal.
  apply update_host_header_idem.
  change (toLowerCase (hostHeaderName isHttp2 req) = hostHeaderName isHttp2 req).
  apply hostHeaderName_lower.
Qed.



(** X16. Without forwarding, for a URL with a host name and a protocol, the
    protocol of the upstream URL is that of the request with its first
    [http] replaced by [ws]: [http:] gives [ws:], [https:] gives [wss:],
    and a protocol without [http] in it ([ws:], [wss:]) is kept. The raw
    headers are passed on unchanged. *)
Theorem direct_protocol_mapping (isLocal : option string → bool)
    (req : OngoingRequest) (socket : Socket) (hn p : string) :
  let u := url_parse (url req) in
  localhost_rewrite isLocal (hostname u) (remoteIpAddress req) = Some hn →
  hn ≠ "" →
  protocol u = Some p →
  (∀ rest, p = "http" +:+ rest →
     handle url_parse isLocal isHttp2 None req socket
     = ConnectUpstream (("ws" +:+ rest) +:+ "//" +:+ hn +:+ port_suffix (port u)
                        +:+ template (path u)) (rawHeaders req))
  ∧ (includes "http" p = false →
     handle url_parse isLocal isHttp2 None req socket
     = ConnectUpstream (p +:+ "//" +:+ hn +:+ port_suffix (port u)
                        +:+ template (path u)) (rawHeaders req)).
Proof.
  intros u Hh Hne Hp.
  assert (Hd : handle url_parse isLocal isHttp2 None req socket
               = ConnectUpstream (replace "http" "ws" p +:+ "//" +:+ hn
                                  +:+ port_suffix (port u) +:+ template (path u))
                                 (rawHeaders req)).
  { unfold handle. fold u. rewrite Hh, Hp. simpl.
    destruct hn; [contradiction|reflexivity]. }
  split.
  - intros rest ->. now rewrite Hd, replace_prefix.
  - intros Hi. now rewrite Hd, (replace_absent _ _ _ Hi).
Qed.

End Handler.

Lemma forwarding_ignores_remote_address_witness :
  handle Sample.url_parse Sample.isLocalhostAddress Sample.isHttp2
    (Some {| targetHost := "example.com"; updateHostHeader := None |})
    Sample.container_request Sample.plain_socket
  = handle Sample.url_parse (λ _, false) Sample.isHttp2
      (Some {| targetHost := "example.com"; updateHostHeader := None |})
      {| url := "ws://localhost/x"; rawHeaders := [("Host", Some "localhost")];
         headers := Sample.no_headers; remoteIpAddress := None |}
      {| lastHopEncrypted := Some true; encrypted := true |}.
Proof.
  apply (forwarding_ignores_remote_address Sample.url_parse Sample.isHttp2
           Sample.isLocalhostAddress (λ _, false)
           {| targetHost := "example.com"; updateHostHeader := None |}
           Sample.container_request Sample.no_headers None).
  reflexivity.
Defined.

Lemma forwarded_host_matches_url_witness :
  ∃ v raw' i key,
    handle Sample.url_parse Sample.isLocalhostAddress Sample.isHttp2
      (Some {| targetHost := "example.com:8080"; updateHostHeader := Some UpdateTrue |})
      Sample.chat_request Sample.plain_socket
    = ConnectUpstream ("ws:" +:+ "//" +:+ v +:+ "/chat?x=1") raw'
    ∧ findRawHeader raw' "host" = Some (i, (key, Some v)).
Proof.
  destruct (forwarded_host_matches_url Sample.url_parse Sample.isHttp2
              Sample.isLocalhostAddress
              {| targetHost := "example.com:8080"; updateHostHeader := Some UpdateTrue |}
              Sample.chat_request Sample.plain_socket (or_intror eq_refl))
    as (v & raw' & i & key & H1 & H2 & _).
  exists v, raw', i, key. split; [exact H1 | exact H2].
Defined.

Lemma rehandling_keeps_forwarded_headers_witness :
  handle Sample.url_parse Sample.isLocalhostAddress Sample.isHttp2
    (Some {| targetHost := "example.com:8080"; updateHostHeader := Some UpdateFalse |})
    {| url := "ws://localhost/x"; rawHeaders := [("host", Some "example.com")];
       headers := Sample.no_headers; remoteIpAddress := None |}
    Sample.plain_socket
  = ConnectUpstream "ws://example.com:8080/x" [("host", Some "example.com")].
Proof.
  apply (rehandling_keeps_forwarded_headers Sample.url_parse Sample.isHttp2
           Sample.isLocalhostAddress
           {| targetHost := "example.com:8080"; updateHostHeader := Some UpdateFalse |}
           {| url := "ws://localhost/x"; rawHeaders := [];
              headers := Sample.no_headers; remoteIpAddress := None |}
           Sample.plain_socket);
    reflexivity.
Defined.

Lemma direct_protocol_mapping_witness :
  handle Sample.url_parse Sample.isLocalhostAddress Sample.isHttp2 None
    Sample.chat_request Sample.plain_socket
  = ConnectUpstream "ws://client.local/chat?x=1" (rawHeaders Sample.chat_request).
Proof.
  apply (proj2 (direct_protocol_mapping Sample.url_parse Sample.isHttp2
                  Sample.isLocalhostAddress Sample.chat_request Sample.plain_socket
                  "client.local" "ws:" eq_refl ltac:(discriminate) eq_refl)).
  reflexivity.
Defined.






End PassThroughMoreFacts.

(** ** Pass-through: the upstream port and the trusted certificates *)
Module UpstreamFacts.
Import Js JsFacts PassThrough Http Upstream.

(** X17. The upstream port: a port written in the URL is read back as the
    number it spells (0 included); without a port it is 443 for the
    protocol [wss:] and 80 for every other protocol, [https:] included. *)
Theorem effectivePort_spec (u : UrlParts) :
  (∀ n, port u = Some (num_to_string n) → effectivePort u = Some n)
  ∧ (truthy_opt (port u) = false →
     (protocol u = Some "wss:" → effectivePort u = Some 443%N)
     ∧ (protocol u ≠ Some "wss:" → effectivePort u = Some 80%N)).
Proof.
  unfold effectivePort. split.
  - intros n Hp. rewrite Hp. simpl.
    pose proof (num_to_string_nonempty n) as Hne.
    destruct (num_to_string n) eqn:E; [contradiction|].
    simpl. rewrite <- E. apply parseInt_num_to_string.
  - intros ->. split.
    + now intros ->.
    + intros Hne. destruct (protocol u) as [p|]; [|reflexivity].
      destruct (String.eqb_spec p "wss:"); [congruence | reflexivity].
Qed.

Lemma effectivePort_spec_witness :
  effectivePort {| protocol := Some "ws:"; hostname := Some "example.com";
                   port := Some "8080"; path := Some "/" |} = Some 8080%N
  ∧ effectivePort {| protocol := Some "wss:"; hostname := Some "example.com";
                     port := None; path := Some "/" |} = Some 443%N
  ∧ effectivePort {| protocol := Some "https:"; hostname := Some "example.com";
                     port := None; path := Some "/" |} = Some 80%N.
Proof.
  split; [|split].
  - apply (proj1 (effectivePort_spec _) 8080%N). reflexivity.
  - apply (proj2 (effectivePort_spec _)); reflexivity.
  - apply (proj2 (effectivePort_spec _)); [reflexivity | discriminate].
Defined.

Lemma promise_all_resolved {A : Type} (l : list A) :
  promise_all (map Resolves l) = Resolves l.
Proof. induction l as [|a l IH]; simpl; [reflexivity | now rewrite IH]. Qed.

Lemma promise_all_app_resolved {A : Type} (l : list A) (ps : list (awaited A)) :
  promise_all (map Resolves l ++ ps)
  = awaited_map (app l) (promise_all ps).
Proof.
  induction l as [|a l IH]; simpl.
  - now destruct (promise_all ps).
  - rewrite IH. now destruct (promise_all ps).
Qed.

Lemma promise_all_sources (readFile : string → awaited string)
    (extra : list CADefinition) :
  (∀ p, p ∈ cert_paths extra → ∃ s, readFile p = Resolves s) →
  ∃ pems, promise_all (map (ca_source readFile) extra) = Resolves pems
          ∧ length pems = length extra
          ∧ (∀ i c, extra !! i = Some (CertGiven c) → pems !! i = Some c)
          ∧ (∀ i p, extra !! i = Some (CertPath p) →
                    ∃ s, readFile p = Resolves s ∧ pems !! i = Some s).
Proof.
  induction extra as [|c extra IH]; intros Hr.
  - exists []. repeat split; intros i x Hi; now rewrite lookup_nil in Hi.
  - destruct IH as (pems & E & Hl & Hg & Hp).
    { intros p Hin. apply Hr. destruct c; simpl; [exact Hin | now right]. }
    destruct c as [cert|path]; simpl.
    + rewrite E. exists (cert :: pems). split; [reflexivity|].
      split; [simpl; lia|]. split.
      * intros [|i] c Hi; simpl in *; [congruence | now apply Hg].
      * intros [|i] p Hi; simpl in *; [discriminate | now apply Hp].
    + destruct (Hr path) as [s Hs]; [now left|]. rewrite Hs, E.
      exists (s :: pems). split; [reflexivity|].
      split; [simpl; lia|]. split.
      * intros [|i] c Hi; simpl in *; [discriminate | now apply Hg].
      * intros [|i] p Hi; simpl in *; [|now apply Hp].
        injection Hi as <-. now exists s.
Qed.

(** X18. On a handler with additional CAs and nothing memoized yet, when
    every certificate file can be read, [trustedCACertificates] resolves to
    the root certificates followed by one PEM string per configured entry,
    in the order of the entries: a given certificate as it is, a path as
    the content of its file; exactly the files of the paths are read. *)
Theorem trustedCACertificates_contents (roots : list string)
    (readFile : string → awaited string) (extra : list CADefinition) :
  extra ≠ [] →
  (∀ p, p ∈ cert_paths extra → ∃ s, readFile p = Resolves s) →
  ∃ pems,
    trustedCACertificates roots readFile
      {| extraCACertificates := extra; _trustedCACertificates := None |}
    = (Resolves (Some (roots ++ pems)),
       {| extraCACertificates := extra;
          _trustedCACertificates := Some (Resolves (roots ++ pems)) |},
       cert_paths extra)
    ∧ length pems = length extra
    ∧ (∀ i c, extra !! i = Some (CertGiven c) → pems !! i = Some c)
    ∧ (∀ i p, extra !! i = Some (CertPath p) →
              ∃ s, readFile p = Resolves s ∧ pems !! i = Some s).
Proof.
  intros Hne Hr.
  destruct (promise_all_sources readFile extra Hr) as (pems & E & Hl & Hg & Hp).
  exists pems. split; [|now repeat split].
  unfold trustedCACertificates. simpl.
  destruct extra as [|c extra]; [contradiction|].
  now rewrite promise_all_app_resolved, E.
Qed.

Lemma trustedCACertificates_contents_witness :
  ∃ pems,
    trustedCACertificates ["root1"; "root2"]
      (λ p, if String.eqb p "/etc/ca.pem" then Resolves "PEM-B" else Rejects)
      {| extraCACertificates := [CertGiven "PEM-A"; CertPath "/etc/ca.pem"];
         _trustedCACertificates := None |}
    = (Resolves (Some (["root1"; "root2"] ++ pems)),
       {| extraCACertificates := [CertGiven "PEM-A"; CertPath "/etc/ca.pem"];
          _trustedCACertificates := Some (Resolves (["root1"; "root2"] ++ pems)) |},
       ["/etc/ca.pem"])
    ∧ length pems = 2.
Proof.
  destruct (trustedCACertificates_contents ["root1"; "root2"]
              (λ p, if String.eqb p "/etc/ca.pem" then Resolves "PEM-B" else Rejects)
              [CertGiven "PEM-A"; CertPath "/etc/ca.pem"])
    as (pems & H1 & H2 & _).
  - discriminate.
  - intros p Hin. apply list_elem_of_In in Hin. simpl in Hin.
    destruct Hin as [<-|[]]. now exists "PEM-B".
  - exists pems. split; [exact H1 | exact H2].
Defined.

(** X19. The trusted certificates are computed at most once per handler:
    after any call, a later call reads no file, leaves the fields as they
    are and settles to the same result as the first one, whatever the files
    hold by then; a failed read is thus kept as well, and never retried. *)
Theorem trustedCACertificates_memoized (roots1 roots2 : list string)
    (readFile1 readFile2 : string → awaited string) (h : CaFields) :
  let first := trustedCACertificates roots1 readFile1 h in
  trustedCACertificates roots2 readFile2 first.1.2 = (first.1.1, first.1.2, []).
Proof.
  unfold trustedCACertificates.
  destruct h as [[|c extra] [p|]]; reflexivity.
Qed.

End UpstreamFacts.
